(** * patentdata: the claim model of [models/corpus_models.py] and the text
      block of [patentdata/models/basemodels.py]

    A shallow embedding of the claim-parsing pipeline: claim number and
    dependency extraction, feature segmentation, noun-phrase labelling and
    the constructor that ties them together.

    Conventions.
    - A Python [str] is a [list ascii] when it is scanned by a regular
      expression (claim text) and a [string] when it is only compared and
      joined (tokens, tags, canonical noun-phrase strings).  Characters are
      code points below 256.
    - Python [int]s that come out of [int(...)] are [Z]; identifiers that
      come out of [len(...)+1] are [nat].
    - The patterns the source compiles with [re.compile] are values of
      [regex], run by a backtracking matcher with Python's priorities
      (leftmost start, alternatives left to right, greedy repetition).
    - [nltk.word_tokenize] and [nltk.pos_tag] are external: they are
      arguments of the functions that call them.  So is the chunk parser,
      for which module [Nltk] also gives what [nltk.RegexpParser] does
      with the grammar of the source.
    - A Python exception is [None] in an [option]; each function that can
      raise comes with a lemma that it never does. *)

From Stdlib Require Import ZArith Ascii String Lia DecimalString DecimalNat.
From stdpp Require Import base list gmap gmultiset strings.

Open Scope nat_scope.

(* ================================================================== *)
(** ** Regular expressions with backtracking *)
(* ================================================================== *)

Module Re.

Section Engine.
Context {A : Type}.

(** The fragment of [re] syntax the source uses.  Every repetition in
    the source's patterns ([\s*], [\d+], and the tag patterns [<JJ>*],
    [<NN.*>+]) ranges over a one-symbol class, so [Star] takes a class. *)
Inductive regex : Type :=
| Eps
| Sym (p : A → bool)
| Cat (r1 r2 : regex)
| Alt (r1 r2 : regex)
| Star (p : A → bool)
| Ahead (p : list A → bool).

Definition Opt (r : regex) : regex := Alt r Eps.
Definition Plus (p : A → bool) : regex := Cat (Sym p) (Star p).

Fixpoint Seq (rs : list regex) : regex :=
  match rs with
  | [] => Eps
  | [r] => r
  | r :: rs' => Cat r (Seq rs')
  end.

Section Run.
Context {R : Type}.

(** Greedy [p*]: take a symbol while the class accepts it, and give
    symbols back one at a time when the rest of the pattern fails. *)
Fixpoint star_run (p : A → bool) (s : list A) (k : list A → option R)
  : option R :=
  match s with
  | c :: s' =>
      if p c then
        match star_run p s' k with
        | Some x => Some x
        | None => k s
        end
      else k s
  | [] => k s
  end.

(** [run r s k]: match [r] at the head of [s]; [k] is the rest of the
    pattern and receives the unconsumed input. *)
Fixpoint run (r : regex) (s : list A) (k : list A → option R)
  : option R :=
  match r with
  | Eps => k s
  | Sym p =>
      match s with
      | c :: s' => if p c then k s' else None
      | [] => None
      end
  | Cat r1 r2 => run r1 s (λ s', run r2 s' k)
  | Alt r1 r2 =>
      match run r1 s k with
      | Some x => Some x
      | None => run r2 s k
      end
  | Star p => star_run p s k
  | Ahead p => if p s then k s else None
  end.
End Run.

(** [pattern.match] anchored at the head of [s]: the unconsumed input. *)
Definition match_here (r : regex) (s : list A) : option (list A) :=
  run r s Some.

(** [pattern.search] over the suffix [s] that starts at offset [i]:
    the [(start, end)] span of the leftmost match. *)
Fixpoint search_from (r : regex) (i : nat) (s : list A)
  : option (nat * nat) :=
  match match_here r s with
  | Some rest => Some (i, i + (length s - length rest))
  | None =>
      match s with
      | [] => None
      | _ :: s' => search_from r (S i) s'
      end
  end.

Definition search (r : regex) (s : list A) : option (nat * nat) :=
  search_from r 0 s.

(** [pattern.finditer]: successive non-overlapping matches.  [s] is the
    suffix at offset [i].  After a match the scan resumes at its end
    (one symbol further after an empty match, if there is one). *)
Fixpoint finditer_from (fuel : nat) (r : regex) (i : nat) (s : list A)
  : list (nat * nat) :=
  match fuel with
  | 0 => []
  | S fuel' =>
      match search_from r i s with
      | None => []
      | Some (st, en) =>
          let next := if en =? st then S en else en in
          (st, en) ::
            (if i + length s <? next then []
             else finditer_from fuel' r next (drop (next - i) s))
      end
  end.

Definition finditer (r : regex) (s : list A) : list (nat * nat) :=
  finditer_from (S (length s)) r 0 s.

(** No match starts at any of the first [n] offsets of [s]. *)
Fixpoint no_match_before (r : regex) (n : nat) (s : list A) : bool :=
  match n with
  | 0 => true
  | S n' =>
      match match_here r s with
      | Some _ => false
      | None =>
          match s with
          | [] => true
          | _ :: s' => no_match_before r n' s'
          end
      end
  end.
End Engine.

Arguments regex : clear implicits.

End Re.

(* ================================================================== *)
(** ** Python strings *)
(* ================================================================== *)

Module Py.
Import Re.

(** A Python [str] as its characters. *)
Definition str := list ascii.

Definition chars (s : string) : str := list_ascii_of_string s.

Definition code (c : ascii) : nat := nat_of_ascii c.

(** [\d] *)
Definition is_digit (c : ascii) : bool :=
  (48 <=? code c) && (code c <=? 57).

(** [\s] and [str.isspace]: tab, LF, VT, FF, CR, the four separators
    0x1c-0x1f, space, NEL and the no-break space. *)
Definition is_space (c : ascii) : bool :=
  ((9 <=? code c) && (code c <=? 13))
  || ((28 <=? code c) && (code c <=? 32))
  || (code c =? 133) || (code c =? 160).

(** [.] (without DOTALL): anything but a line feed. *)
Definition is_dot (c : ascii) : bool := negb (code c =? 10).

Definition is_char (a c : ascii) : bool := Ascii.eqb a c.

(** [$] (without MULTILINE): at the end, or before a final line feed. *)
Definition at_end (rest : str) : bool :=
  match rest with
  | [] => true
  | [c] => code c =? 10
  | _ => false
  end.

Definition ws : regex ascii := Sym is_space.
Definition chr (c : ascii) : regex ascii := Sym (is_char c).
Definition either (a b : ascii) : regex ascii := Alt (chr a) (chr b).

(** A literal word. *)
Definition lit (w : string) : regex ascii := Seq (map chr (chars w)).

(** [s[i:j]] for [0 <= i], [0 <= j]. *)
Definition slice (s : str) (i j : nat) : str := take (j - i) (drop i s).

(** [s[:-1]] *)
Definition drop_last (s : str) : str := take (length s - 1) s.

Fixpoint lstrip (s : str) : str :=
  match s with
  | c :: s' => if is_space c then lstrip s' else s
  | [] => []
  end.

Definition rstrip (s : str) : str := rev (lstrip (rev s)).

(** [s.strip()] *)
Definition strip (s : str) : str := rstrip (lstrip s).

Definition digit_val (c : ascii) : Z := Z.of_nat (code c - 48).

(** [int(s)] for [s] a run of decimal digits, which is all the source
    passes to it (what [\d+] matched); [None], for any other string,
    stands for [ValueError]. *)
Definition int (s : str) : option Z :=
  match s with
  | [] => None
  | _ =>
      if forallb is_digit s
      then Some (fold_left (λ acc c, 10 * acc + digit_val c)%Z s 0%Z)
      else None
  end.

(** Truth value of an optional integer argument: [None] and [0] are
    false. *)
Definition truthy (o : option Z) : bool :=
  match o with
  | Some n => negb (n =? 0)%Z
  | None => false
  end.

(** A dict with string keys, in insertion order ([dict.items()] order). *)
Definition dict (V : Type) := list (string * V).

(** [d.get(k, None)] *)
Fixpoint dict_get {V} (d : dict V) (k : string) : option V :=
  match d with
  | [] => None
  | (k', v) :: d' => if String.eqb k' k then Some v else dict_get d' k
  end.

(** [d[k] = v]: an existing key keeps its place, a new one goes last. *)
Fixpoint dict_set {V} (d : dict V) (k : string) (v : V) : dict V :=
  match d with
  | [] => [(k, v)]
  | (k', v') :: d' =>
      if String.eqb k' k then (k', v) :: d' else (k', v') :: dict_set d' k v
  end.

(** [a or b] on strings: [a] unless it is empty. *)
Definition str_or (a b : string) : string :=
  match a with
  | EmptyString => b
  | _ => a
  end.

End Py.

(* ================================================================== *)
(** ** The chunk parser the claim model calls *)
(* ================================================================== *)

(** [nltk.RegexpParser] on a grammar of one stage whose rules are chunk
    rules [{...}]: the sentence starts with every token outside a chunk,
    and each rule in turn wraps, in what is still outside, the leftmost
    non-overlapping matches of its tag pattern. *)

Module Nltk.
Import Re.

(** A tagged token [(word, tag)], as [nltk.pos_tag] returns them. *)
Definition tagged := (string * string)%type.

(** A child of the root of the tree [RegexpParser.parse] returns for a
    one-stage grammar: a tagged token outside every chunk, or a chunk
    [Tree('NP', leaves)]. *)
Inductive node : Type :=
| Leaf (t : tagged)
| NP (leaves : list tagged).

Definition leaves_of (n : node) : list tagged :=
  match n with
  | Leaf t => [t]
  | NP ls => ls
  end.

(** [tree.leaves()] of the root. *)
Definition leaves (t : list node) : list tagged := concat (map leaves_of t).

(** One chunk rule over a run of tokens that are in no chunk yet: wrap the
    leftmost matches, longest first, left to right, without overlap. *)
Fixpoint chunk_run (fuel : nat) (r : regex tagged) (run : list tagged)
  : list node :=
  match fuel with
  | 0 => map Leaf run
  | S fuel' =>
      match run with
      | [] => []
      | t :: run' =>
          match match_here r run with
          | Some rest =>
              let n := length run - length rest in
              if n =? 0 then Leaf t :: chunk_run fuel' r run'
              else NP (take n run) :: chunk_run fuel' r rest
          | None => Leaf t :: chunk_run fuel' r run'
          end
      end
  end.

(** One chunk rule over a tree: existing chunks stay, each maximal run of
    unchunked tokens ([run], collected so far) is chunked by [chunk_run]. *)
Fixpoint apply_rule (r : regex tagged) (t : list node) (run : list tagged)
  : list node :=
  match t with
  | [] => chunk_run (length run) r run
  | Leaf x :: t' => apply_rule r t' (run ++ [x])
  | NP ls :: t' => chunk_run (length run) r run ++ NP ls :: apply_rule r t' []
  end.

(** [RegexpParser(grammar).parse(pos)] for a grammar with one stage: the
    rules are applied in the order they are written. *)
Definition parse (grammar : list (regex tagged)) (pos : list tagged)
  : list node :=
  fold_left (λ t r, apply_rule r t []) grammar (map Leaf pos).

End Nltk.

(* ================================================================== *)
(** ** [models/corpus_models.py]: class [Claim] *)
(* ================================================================== *)

Module Feature.
(** One entry of [featurelist]: the dict with keys ['startindex'],
    ['endindex'] and ['text']. *)
Record feature := mk { startindex : nat; endindex : nat; text : Py.str }.
End Feature.

Module Claim.
Import Re Py Nltk.

(** *** Patterns *)

(** ['\d+\.'] *)
Definition number_re : regex ascii := Cat (Plus is_digit) (chr ".").

(** ['\d+'] *)
Definition num_re : regex ascii := Plus is_digit.

(** ['(of|to|with|in)?\s(C|c)laims?\s\d+((\sto\s\d+)|(\sor\s(C|c)laim\s\d+))?(,\swherein)?'] *)
Definition dependency_re : regex ascii :=
  Seq [ Opt (Alt (lit "of") (Alt (lit "to") (Alt (lit "with") (lit "in"))));
        ws; either "C" "c"; lit "laim"; Opt (chr "s"); ws; Plus is_digit;
        Opt (Alt (Seq [ws; lit "to"; ws; Plus is_digit])
                 (Seq [ws; lit "or"; ws; either "C" "c"; lit "laim"; ws;
                       Plus is_digit]));
        Opt (Seq [chr ","; ws; lit "wherein"]) ].

(** ['\s(preceding|previous)\s(C|c)laims?(,\swherein)?'] *)
Definition preceding_re : regex ascii :=
  Seq [ ws; Alt (lit "preceding") (lit "previous"); ws; either "C" "c";
        lit "laim"; Opt (chr "s"); Opt (Seq [chr ","; ws; lit "wherein"]) ].

(** The four alternatives of [split_expression], in the source's order:
    [;\s*(and)?]   [,.?(and)?\n]   [:\s*]   [\.\s*$] *)
Definition split_expression : regex ascii :=
  Alt (Seq [chr ";"; Star is_space; Opt (lit "and")])
 (Alt (Seq [chr ","; Opt (Sym is_dot); Opt (lit "and"); chr "010"])
 (Alt (Seq [chr ":"; Star is_space])
      (Seq [chr "."; Star is_space; Ahead at_end]))).

(** *** [get_number] *)

(** Returns [(number, text)]; the outer [None] is an exception raised by
    [int]. *)
Definition get_number (text : str) : option (option Z * str) :=
  match search number_re text with
  | Some (st, en) =>
      number ← int (drop_last (slice text st en));
      Some (Some number, strip (drop en text))
  | None => Some (None, text)
  end.

(** *** [detect_dependency] *)

(** [None] is an exception: [num.search(...)] finding nothing, or [int]
    failing. *)
Definition detect_dependency (text : str) : option Z :=
  match search dependency_re text with
  | Some (st, en) =>
      let group := slice text st en in
      '(a, b) ← search num_re group;
      int (slice group a b)
  | None =>
      match search preceding_re text with
      | Some _ => Some 1%Z
      | None => Some 0%Z
      end
  end.

(** *** [split_into_features] *)

(** The loop body: append the feature that ends at this match, move
    [startindex] to its end. *)
Definition feature_step (text : str) (st : list Feature.feature * nat)
    (m : nat * nat) : list Feature.feature * nat :=
  let '(featurelist, startindex) := st in
  let endindex := m.2 in
  (featurelist ++ [Feature.mk startindex endindex (slice text startindex endindex)],
   endindex).

Definition split_into_features (text : str) : list Feature.feature :=
  (fold_left (feature_step text) (finditer split_expression text) ([], 0)).1.

(** *** [label_nounphrases] *)

(** A tag pattern [<T>] *)
Definition tag_is (t : string) (x : tagged) : bool := String.eqb x.2 t.

(** [<DT|PRP\$>] *)
Definition tag_DT_PRPS (x : tagged) : bool := tag_is "DT" x || tag_is "PRP$" x.

(** [<NN.*>] *)
Definition tag_NN (x : tagged) : bool := String.prefix "NN" x.2.

(** The three rules of the stage [NP], in the source's order. *)
Definition grammar : list (regex tagged) :=
  [ Seq [Sym tag_DT_PRPS; Sym (tag_is "VBG"); Plus tag_NN];
    Seq [Sym tag_DT_PRPS; Sym tag_NN; Sym (tag_is "POS");
         Star (tag_is "JJ"); Plus tag_NN];
    Seq [Opt (Sym tag_DT_PRPS); Star (tag_is "JJ"); Plus tag_NN] ].

(** [cp.parse] *)
Definition cp_parse : list tagged → list node := Nltk.parse grammar.

(** The third component of a triple of [flat_list]: [pos_to_np.get(i, '')]. *)
Inductive np_label : Type :=
| NoNP
| NPid (np_id : nat).

Definition word_datum := (string * string * np_label)%type.

(** [ptree.subtrees(filter=lambda x: x.label()=='NP')], each with its
    [parent_index()]; [i] is the index of the head of [ptree]. *)
Fixpoint subtrees_NP (i : nat) (ptree : list node)
  : list (nat * list tagged) :=
  match ptree with
  | [] => []
  | NP ls :: t => (i, ls) :: subtrees_NP (S i) t
  | Leaf _ :: t => subtrees_NP (S i) t
  end.

(** The tag the join condition compares with: [("DT" or "PRP$")]. *)
Definition skipped_tag : string := str_or "DT" "PRP$".

(** [" ".join([leaf[0] for leaf in st.leaves() if leaf[1] != ("DT" or "PRP$")])] *)
Definition np_string (st_leaves : list tagged) : string :=
  String.concat " "
    (map fst (filter (λ leaf : tagged, leaf.2 ≠ skipped_tag) st_leaves)).

(** [if not np_id]: [None] and [0] are false. *)
Definition found (np_id : option nat) : option nat :=
  match np_id with
  | Some 0 => None
  | o => o
  end.

(** [pos_to_np.get(i, '')] *)
Definition label_at (pos_to_np : gmap nat nat) (i : nat) : np_label :=
  match pos_to_np !! i with
  | Some np_id => NPid np_id
  | None => NoNP
  end.

(** The second loop: the triples of the children of [ptree], the head
    having index [i]. *)
Fixpoint flat_list_from (pos_to_np : gmap nat nat) (i : nat)
    (ptree : list node) : list word_datum :=
  match ptree with
  | [] => []
  | NP ls :: t =>
      map (λ leaf : tagged, (leaf.1, leaf.2, label_at pos_to_np i)) ls
      ++ flat_list_from pos_to_np (S i) t
  | Leaf x :: t =>
      (x.1, x.2, label_at pos_to_np i) :: flat_list_from pos_to_np (S i) t
  end.

Section Labelling.
(** [cp.parse] and [utils.ends_with]. *)
Variable parse : list tagged → list node.
Variable ends_with : string → string → bool.

(** The body of the first loop up to the assignment of [np_id]: the
    identifier of [np_string] and the mapping afterwards.  [None] is the
    [KeyError] of [mapping_dict[ends_with_list[0]]]. *)
Definition resolve (mapping_dict : dict nat) (np_string : string)
  : option (nat * dict nat) :=
  match found (dict_get mapping_dict np_string) with
  | Some np_id => Some (np_id, mapping_dict)
  | None =>
      let nps := map fst mapping_dict in
      let ends_with_list :=
        filter (λ np, ends_with np_string np = true) nps in
      match ends_with_list with
      | np :: _ =>
          np_id ← dict_get mapping_dict np;
          Some (np_id, mapping_dict)
      | [] =>
          let np_id := length mapping_dict + 1 in
          Some (np_id, dict_set mapping_dict np_string np_id)
      end
  end.

(** The first loop, over the NP subtrees. *)
Fixpoint np_loop (subtrees : list (nat * list tagged))
    (mapping_dict : dict nat) (pos_to_np : gmap nat nat)
  : option (dict nat * gmap nat nat) :=
  match subtrees with
  | [] => Some (mapping_dict, pos_to_np)
  | (parent_index, st_leaves) :: rest =>
      '(np_id, mapping_dict') ← resolve mapping_dict (np_string st_leaves);
      np_loop rest mapping_dict' (<[parent_index := np_id]> pos_to_np)
  end.

Definition label_nounphrases (pos : list tagged)
  : option (list word_datum * dict nat) :=
  let ptree := parse pos in
  '(mapping_dict, pos_to_np) ← np_loop (subtrees_NP 0 ptree) [] ∅;
  Some (flat_list_from pos_to_np 0 ptree, mapping_dict).

(** *** [__init__] *)

(** [nltk.word_tokenize] and [nltk.pos_tag]. *)
Variable word_tokenize : str → list string.
Variable pos_tag : list string → list tagged.

(** The attributes the constructor sets ([category] apart), and what it
    printed. *)
Record claim := Build {
  text : str;
  number : option Z;
  dependency : Z;
  words : list string;
  pos : list tagged;
  word_data : list word_datum;
  mapping_dict : dict nat;
  features : list Feature.feature;
  stdout : list string
}.

Definition get_words (text : str) : list string := word_tokenize text.

(** [if not self.words: self.get_words()] drops what it computes. *)
Definition get_pos (words : list string) : list tagged := pos_tag words.

Definition number_warning : string :=
  "Warning: detected claim number does not equal passed claim number.".

Definition dependency_warning : string :=
  "Warning: detected dependency does not equal passed dependency.".

(** [Claim(text, number, dependency)]; [None] for an argument left at
    its default. *)
Definition init (text0 : str) (number0 dependency0 : option Z)
  : option claim :=
  '(parsed_number, text1) ← get_number text0;
  let '(number1, out1) :=
    if truthy number0 then
      (number0,
       if decide (number0 ≠ parsed_number) then [number_warning] else [])
    else (parsed_number, []) in
  parsed_dependency ← detect_dependency text1;
  let '(dependency1, out2) :=
    match dependency0 with
    | Some d =>
        if truthy dependency0 then
          (d, if decide (d ≠ parsed_dependency)
              then [dependency_warning] else [])
        else (parsed_dependency, [])
    | None => (parsed_dependency, [])
    end in
  let words1 := get_words text1 in
  let pos1 := get_pos words1 in
  '(word_data1, mapping_dict1) ← label_nounphrases pos1;
  Some (Build text1 number1 dependency1 words1 pos1 word_data1 mapping_dict1
           (split_into_features text1) (out1 ++ out2)).
End Labelling.

(** Modelled from the spec: [utils.ends_with], which [label_nounphrases]
    calls as [utils.ends_with(np_string, np)]; the module [utils] is not
    among the sources.  The spec: the new string is a suffix match
    (word-boundary-aware "ends with") of an existing key.  So: [np_string]
    is [np], or [np] ends with a space followed by [np_string]. *)
Definition ends_with (np_string np : string) : bool :=
  String.eqb np_string np
  || bool_decide (" "%char :: chars np_string `suffix_of` chars np).

End Claim.

(* ================================================================== *)
(** ** [patentdata/models/basemodels.py]: class [BaseTextBlock] *)
(* ================================================================== *)

Module BaseTextBlock.
Import Nltk.

Section SetPos.
Variable pos_tag : list string → list tagged.

(** [set_pos]: the tagger's list with ['comprising'] hard set to VBG. *)
Definition set_pos (words : list string) : list tagged :=
  map (λ '(word, pos),
         if decide (word ≠ "comprising") then (word, pos)
         else ("comprising", "VBG"))
      (pos_tag words).
End SetPos.

End BaseTextBlock.

(* ================================================================== *)
(** ** Predicates the statements use *)
(* ================================================================== *)

Module Spec.
Import Re Py Nltk.

Section Matches.
Context {A : Type}.

(** [matches r u rest]: the pattern [r] can consume [u] when [rest]
    follows it. *)
Inductive matches : regex A → list A → list A → Prop :=
| m_eps rest : matches Eps [] rest
| m_sym p c rest : p c = true → matches (Sym p) [c] rest
| m_cat r1 r2 u1 u2 rest :
    matches r1 u1 (u2 ++ rest) → matches r2 u2 rest →
    matches (Cat r1 r2) (u1 ++ u2) rest
| m_alt_l r1 r2 u rest : matches r1 u rest → matches (Alt r1 r2) u rest
| m_alt_r r1 r2 u rest : matches r2 u rest → matches (Alt r1 r2) u rest
| m_star p u rest : forallb p u = true → matches (Star p) u rest
| m_ahead (p : list A → bool) rest :
    p rest = true → matches (Ahead p) [] rest.
End Matches.

(** The decimal numeral of [n], as it is written in a claim. *)
Definition decimal (n : nat) : str :=
  chars (NilEmpty.string_of_uint (Nat.to_uint n)).

(** A digit directly followed by a full stop occurs in [s]: the text has
    a digits-followed-by-period pattern. *)
Fixpoint has_digit_dot (s : str) : bool :=
  match s with
  | c :: s' =>
      match s' with
      | d :: _ => (is_digit c && is_char "." d) || has_digit_dot s'
      | [] => false
      end
  | [] => false
  end.

(** [needle] occurs in [s]. *)
Fixpoint contains (needle s : str) : bool :=
  bool_decide (needle `prefix_of` s)
  || match s with
     | [] => false
     | _ :: s' => contains needle s'
     end.

(** The end offset of the last delimiter match, 0 when there is none. *)
Definition last_match_end (text : str) : nat :=
  default 0 (last (map snd (finditer Claim.split_expression text))).

(** Spans in increasing order between [lo] and [hi], none empty, none
    overlapping the next. *)
Fixpoint spans_from (lo hi : nat) (l : list (nat * nat)) : Prop :=
  match l with
  | [] => True
  | (st, en) :: l' => lo ≤ st ∧ st < en ∧ en ≤ hi ∧ spans_from en hi l'
  end.

(** The features cut at the offsets [ends], the first one from [start]. *)
Fixpoint cut (text : str) (start : nat) (ends : list nat)
  : list Feature.feature :=
  match ends with
  | [] => []
  | e :: ends' => Feature.mk start e (slice text start e) :: cut text e ends'
  end.

(** Each feature starts where the one before it ends, the first at
    [start]. *)
Fixpoint chained (start : nat) (fs : list Feature.feature) : Prop :=
  match fs with
  | [] => True
  | f :: fs' =>
      Feature.startindex f = start ∧ chained (Feature.endindex f) fs'
  end.

(** The identifiers of a mapping, in insertion order, are 1, 2, ... *)
Definition ids_in_order (mapping_dict : dict nat) : Prop :=
  map snd mapping_dict = seq 1 (length mapping_dict).

(** [np_string] is [np], or [np] ends with a space and [np_string]: the
    new string is a word-boundary suffix of the key. *)
Definition word_suffix (np_string np : string) : Prop :=
  np_string = np ∨ ∃ front, chars np = front ++ " "%char :: chars np_string.

(** The keys of a mapping were each new when they went in: no key equals
    an earlier one, and none was matched by [ends_with] against an
    earlier one. *)
Definition first_seen (ends_with : string → string → bool)
    (keys : list string) : Prop :=
  ∀ k1 s k2, keys = k1 ++ s :: k2 →
    Forall (λ k, k ≠ s ∧ ends_with s k = false) k1.

(** [pos_to_np] after the assignments [pos_to_np[j] = np_id] of [l], in
    order. *)
Definition insert_all (l : list (nat * nat)) (pos_to_np : gmap nat nat)
  : gmap nat nat :=
  foldl (λ p '(j, np_id), <[j := np_id]> p) pos_to_np l.

(** The triples of a tree whose chunks have the identifiers [ids], in
    order: the tokens of a chunk carry its identifier, the other tokens
    the empty marker. *)
Fixpoint labelled (t : list node) (ids : list nat) : list Claim.word_datum :=
  match t with
  | [] => []
  | Leaf x :: t' => (x.1, x.2, Claim.NoNP) :: labelled t' ids
  | NP ls :: t' =>
      match ids with
      | np_id :: ids' =>
          map (λ leaf : tagged, (leaf.1, leaf.2, Claim.NPid np_id)) ls
          ++ labelled t' ids'
      | [] => []
      end
  end.

(** A tagger that calls every word a noun, and the tokens of "A device
    comprising a sensor." *)
Definition tag_all_NN (words : list string) : list tagged :=
  map (λ w, (w, "NN"%string)) words.

Definition example_tokens (_ : str) : list string :=
  ["A"; "device"; "comprising"; "a"; "sensor"; "."]%string.

(** A tagged token without its label. *)
Definition untag (d : Claim.word_datum) : tagged := (d.1.1, d.1.2).

(** [label_nounphrases] returns; its flat list holds the tokens [pos],
    each once and in order; it is the tree with the tokens of each chunk
    labelled by the chunk's identifier and the other tokens by the empty
    marker; and each chunk's identifier is in the mapping and is what
    resolving the chunk's canonical string against the final mapping
    gives. *)
Definition tokens_labelled (parse : list tagged → list node)
    (ends_with : string → string → bool) (pos : list tagged) : Prop :=
  ∃ flat_list mapping_dict ids,
    Claim.label_nounphrases parse ends_with pos
    = Some (flat_list, mapping_dict)
    ∧ map untag flat_list = pos
    ∧ flat_list = labelled (parse pos) ids
    ∧ Forall2 (λ st np_id,
                 np_id ∈ map snd mapping_dict
                 ∧ Claim.resolve ends_with mapping_dict (Claim.np_string st.2)
                   = Some (np_id, mapping_dict))
              (Claim.subtrees_NP 0 (parse pos)) ids.

End Spec.

(* ================================================================== *)
(** ** [models/corpus_models.py]: the rest of [Claim] *)
(* ================================================================== *)

Module Category.
Import Re Py.

(** [\w]: letters, digits and numerals of the code points below 256, and
    the underscore. *)
Definition is_word (c : ascii) : bool :=
  let n := code c in
  ((48 <=? n) && (n <=? 57)) || ((65 <=? n) && (n <=? 90)) || (n =? 95)
  || ((97 <=? n) && (n <=? 122)) || (n =? 170)
  || ((178 <=? n) && (n <=? 179)) || (n =? 181)
  || ((185 <=? n) && (n <=? 186)) || ((188 <=? n) && (n <=? 190))
  || ((192 <=? n) && (n <=? 214)) || ((216 <=? n) && (n <=? 246))
  || ((248 <=? n) && (n <=? 255)).

(** [[\w-]] *)
Definition is_word_or_hyphen (c : ascii) : bool := is_word c || is_char "-" c.

(** Greedy [(r)*] for a group [r]: one more round of [r] first, as long
    as a round consumes something; when what follows fails, the rounds
    are given back one at a time. *)
Fixpoint rep_run {A R} (fuel : nat) (r : regex A) (s : list A)
    (k : list A → option R) : option R :=
  match fuel with
  | 0 => k s
  | S fuel' =>
      match run r s (λ s', if length s' <? length s
                           then rep_run fuel' r s' k else None) with
      | Some x => Some x
      | None => k s
      end
  end.

(** [pattern.search] for a pattern given by its anchored matcher [m]. *)
Fixpoint search_with {A} (m : list A → option (list A)) (i : nat)
    (s : list A) : option (nat * nat) :=
  match m s with
  | Some rest => Some (i, i + (length s - length rest))
  | None =>
      match s with
      | [] => None
      | _ :: s' => search_with m (S i) s'
      end
  end.

(** The three parts of ['(A|An|The)\s([\w-]+\s)*(method|process)\s(of|for)?']:
    before the repeated group, the group, and after it. *)
Definition category_head : regex ascii :=
  Cat (Alt (lit "A") (Alt (lit "An") (lit "The"))) ws.

Definition category_word : regex ascii := Cat (Plus is_word_or_hyphen) ws.

Definition category_tail : regex ascii :=
  Seq [Alt (lit "method") (lit "process"); ws; Opt (Alt (lit "of") (lit "for"))].

(** The whole pattern, anchored at the head of [s]. *)
Definition category_here (s : str) : option str :=
  run category_head s
    (λ s1, rep_run (length s1) category_word s1
             (λ s2, run category_tail s2 Some)).

(** [detect_category] *)
Definition detect_category (text : str) : string :=
  match search_with category_here 0 text with
  | Some _ => "method"
  | None => "system"
  end.

End Category.

Module Json.
Import Py Nltk.

(** One entry of [words]: the dict with keys ["id"], ["word"], ["pos"]
    and ["np"]. *)
Record word_record := mk {
  id : nat;
  word : string;
  pos : string;
  np : Claim.np_label
}.

(** The records of [enumerate(word_data)] from the index [i] on. *)
Fixpoint words_from (i : nat) (word_data : list Claim.word_datum)
  : list word_record :=
  match word_data with
  | [] => []
  | (word, part, np) :: rest => mk i word part np :: words_from (S i) rest
  end.

(** [json]: the list under ["claim"]["words"], the only content of what
    the method returns. *)
Definition json (word_data : list Claim.word_datum) : list word_record :=
  words_from 0 word_data.

End Json.

(* ================================================================== *)
(** ** [patentdata/models/basemodels.py]: the rest of [BaseTextBlock],
       and [BaseTextSet] *)
(* ================================================================== *)

Module TextBlock.
Import Py.

(** [c.lower()] for one character. *)
Definition lower_char (c : ascii) : ascii :=
  let n := code c in
  if ((65 <=? n) && (n <=? 90)) || ((192 <=? n) && (n <=? 214))
     || ((216 <=? n) && (n <=? 222))
  then ascii_of_nat (n + 32) else c.

(** [s.lower()] *)
Fixpoint lower (s : string) : string :=
  match s with
  | EmptyString => EmptyString
  | String c s' => String (lower_char c) (lower s')
  end.

(** [appears_in], on the words of the block. *)
Definition appears_in (words : list string) (term : string) : bool :=
  bool_decide (lower term ∈ map lower words).

(** [characters] *)
Definition characters (text : str) : list ascii := text.

(** [character_counter]: a [Counter] is a multiset. *)
Definition character_counter (text : str) : gmultiset ascii :=
  list_to_set_disj (characters text).

(** [filtered_token2int], on the filtered tokens of the block; [None] is
    the [KeyError] of [vocab_dict["_UNK_"]]. *)
Definition filtered_token2int (vocab_dict : gmap string Z)
    (tokens : list string) : option (list Z) :=
  mapM (λ token,
          match vocab_dict !! token with
          | Some v => Some v
          | None => vocab_dict !! "_UNK_"%string
          end)
       tokens.

End TextBlock.

Module TextSet.
Import Py.

(** [l[i]] for a Python list and an integer index; [None] is
    [IndexError]. *)
Definition py_index {A} (l : list A) (i : Z) : option A :=
  let n := Z.of_nat (length l) in
  if (0 <=? i)%Z && (i <? n)%Z then l !! Z.to_nat i
  else if (- n <=? i)%Z && (i <? 0)%Z then l !! Z.to_nat (n + i)
  else None.

(** [sep.join(parts)] *)
Fixpoint join (sep : str) (parts : list str) : str :=
  match parts with
  | [] => []
  | [p] => p
  | p :: rest => p ++ sep ++ join sep rest
  end.

(** [get_unit] *)
Definition get_unit {A} (units : list A) (number : Z) : option A :=
  py_index units (number - 1).

(** [text], on the texts of the units. *)
Definition text (units : list str) : str := join ["010"%char] units.

(** [character_counter]: [sum] of the counters of the units, from the
    empty counter. *)
Definition character_counter (units : list str) : gmultiset ascii :=
  foldl (λ acc u, acc ⊎ TextBlock.character_counter u) ∅ units.

End TextSet.

(* ================================================================== *)
(** ** Further predicates *)
(* ================================================================== *)

Module SpecX.
Import Re Py Nltk Spec.

(** One of the characters a delimiter match starts with. *)
Definition is_delimiter (c : ascii) : bool :=
  is_char ";" c || is_char "," c || is_char ":" c || is_char "." c.

(** The spans [l] are, from offset [lo] of [text] on, each the leftmost
    match of [r] after the one before it. *)
Fixpoint leftmost_from {A} (r : regex A) (text : list A) (lo : nat)
    (l : list (nat * nat)) : Prop :=
  match l with
  | [] => True
  | (st, en) :: l' =>
      lo ≤ st ∧ st < en ∧ en ≤ length text
      ∧ no_match_before r (st - lo) (drop lo text) = true
      ∧ matches r (take (en - st) (drop st text)) (drop en text)
      ∧ leftmost_from r text en l'
  end.

(** The feature [f] of [text] is a stretch in which no delimiter match
    starts, followed by one delimiter match, which ends it. *)
Definition ends_with_delimiter (text : str) (f : Feature.feature) : Prop :=
  ∃ st,
    Feature.startindex f ≤ st ∧ st < Feature.endindex f
    ∧ no_match_before Claim.split_expression (st - Feature.startindex f)
        (drop (Feature.startindex f) text) = true
    ∧ matches Claim.split_expression
        (slice text st (Feature.endindex f)) (drop (Feature.endindex f) text).

(** The last token is a noun. *)
Definition ends_in_noun (ls : list tagged) : Prop :=
  ∃ front x, ls = front ++ [x] ∧ Claim.tag_NN x = true.

(** A token outside every chunk is no noun, and a chunk ends with a
    noun. *)
Definition noun_inside (n : node) : Prop :=
  match n with
  | Leaf x => Claim.tag_NN x = false
  | NP ls => ends_in_noun ls
  end.

(** An adjective word of the category pattern with the white space after
    it: one or more characters of [[\w-]], then one white space. *)
Definition word_group (g : str) : Prop :=
  ∃ w c, g = w ++ [c] ∧ w ≠ []
         ∧ forallb Category.is_word_or_hyphen w = true ∧ is_space c = true.

End SpecX.

(* ================================================================== *)
(** ** Facts about the matcher *)
(* ================================================================== *)

Module ReFacts.
Import Re Spec.

Section Facts.
Context {A : Type}.
Implicit Types (r : regex A) (s u rest : list A) (p : A → bool).

Lemma star_run_sound {R} p s (k : list A → option R) x :
  star_run p s k = Some x →
  ∃ u rest, s = u ++ rest ∧ forallb p u = true ∧ k rest = Some x.
Proof.
  revert x. induction s as [|c s IH]; intros x H; simpl in H.
  - by exists [], [].
  - destruct (p c) eqn:Hc; [|by exists [], (c :: s)].
    destruct (star_run p s k) as [y|] eqn:Hs.
    + injection H as <-. destruct (IH y eq_refl) as (u & rest & -> & Hu & Hk).
      exists (c :: u), rest. simpl. by rewrite Hc, Hu.
    + by exists [], (c :: s).
Qed.

Lemma run_sound {R} r : ∀ s (k : list A → option R) x,
  run r s k = Some x →
  ∃ u rest, s = u ++ rest ∧ matches r u rest ∧ k rest = Some x.
Proof.
  induction r as [|p|r1 IH1 r2 IH2|r1 IH1 r2 IH2|p|p]; intros s k x H;
    simpl in H.
  - exists [], s. eauto using @matches.
  - destruct s as [|c s]; [done|]. destruct (p c) eqn:Hc; [|done].
    exists [c], s. eauto using @matches.
  - destruct (IH1 _ _ _ H) as (u1 & rest1 & -> & M1 & H2).
    destruct (IH2 _ _ _ H2) as (u2 & rest & -> & M2 & Hk).
    exists (u1 ++ u2), rest. rewrite <- (assoc_L (++)).
    eauto using @matches.
  - destruct (run r1 s k) as [y|] eqn:H1.
    + injection H as <-. destruct (IH1 _ _ _ H1) as (u & rest & -> & M & Hk).
      exists u, rest. eauto using @matches.
    + destruct (IH2 _ _ _ H) as (u & rest & -> & M & Hk).
      exists u, rest. eauto using @matches.
  - destruct (star_run_sound _ _ _ _ H) as (u & rest & -> & Hu & Hk).
    exists u, rest. eauto using @matches.
  - destruct (p s) eqn:Hp; [|done]. exists [], s. eauto using @matches.
Qed.

Lemma match_here_sound r s rest :
  match_here r s = Some rest → ∃ u, s = u ++ rest ∧ matches r u rest.
Proof.
  intros H. destruct (run_sound _ _ _ _ H) as (u & rest' & -> & M & [= ->]).
  eauto.
Qed.

Lemma match_here_length r s rest :
  match_here r s = Some rest → length rest ≤ length s.
Proof.
  intros (u & -> & _)%match_here_sound. rewrite length_app. lia.
Qed.

(** A span that [search_from] returns lies inside the input, no match
    starts before it, and the pattern matches there. *)
Lemma search_from_Some r : ∀ s i st en,
  search_from r i s = Some (st, en) →
  i ≤ st ∧ st ≤ en ∧ en ≤ i + length s ∧
  no_match_before r (st - i) s = true ∧
  match_here r (drop (st - i) s) = Some (drop (en - i) s).
Proof.
  induction s as [|c s IH]; intros i st en H; simpl in H.
  - destruct (match_here r []) as [rest|] eqn:Hm; [|done].
    injection H as <- <-. pose proof (match_here_length _ _ _ Hm) as Hl.
    destruct rest; [|simpl in Hl; lia]. simpl.
    replace (i - i) with 0 by lia. replace (i + 0 - i) with 0 by lia.
    simpl. repeat split; try lia. done.
  - destruct (match_here r (c :: s)) as [rest|] eqn:Hm.
    + injection H as <- <-. pose proof (match_here_length _ _ _ Hm) as Hl.
      destruct (match_here_sound _ _ _ Hm) as (u & Hu & _).
      assert (length (c :: s) = length u + length rest) as Hlen
        by (by rewrite Hu, length_app).
      simpl length in *.
      replace (i - i) with 0 by lia.
      replace (i + (S (length s) - length rest) - i) with (length u)
        by lia.
      repeat split; try lia.
      change (drop 0 (c :: s)) with (c :: s). rewrite Hm. f_equal.
      by rewrite Hu, drop_app_length.
    + destruct (IH _ _ _ H) as (H1 & H2 & H3 & H4 & H5).
      replace (st - i) with (S (st - S i)) by lia.
      replace (en - i) with (S (en - S i)) by lia.
      simpl. rewrite Hm. repeat split; try lia; done.
Qed.

Lemma search_from_skip r : ∀ n s i,
  no_match_before r n s = true → n ≤ length s →
  search_from r i s = search_from r (i + n) (drop n s).
Proof.
  induction n as [|n IH]; intros s i H Hn.
  - by rewrite Nat.add_0_r.
  - destruct s as [|c s]; [simpl in Hn; lia|].
    simpl in H. destruct (match_here r (c :: s)) eqn:Hm; [done|].
    simpl. rewrite Hm. rewrite (IH s (S i)); [|done|simpl in Hn; lia].
    f_equal. lia.
Qed.

Lemma search_from_here r s i rest :
  match_here r s = Some rest →
  search_from r i s = Some (i, i + (length s - length rest)).
Proof. intros H. destruct s; simpl; by rewrite H. Qed.

(** Nothing matches at any offset. *)
Lemma search_from_None r : ∀ s i,
  search_from r i s = None ↔ ∀ n, n ≤ length s → match_here r (drop n s) = None.
Proof.
  induction s as [|c s IH]; intros i; simpl.
  - destruct (match_here r []) eqn:Hm.
    + split; [done|]. intros H. specialize (H 0 (le_n _)). simpl in H. congruence.
    + split; [|done]. intros _ n Hn. by rewrite drop_nil.
  - destruct (match_here r (c :: s)) eqn:Hm.
    + split; [done|]. intros H. specialize (H 0 (Nat.le_0_l _)). simpl in H. congruence.
    + rewrite IH. split.
      * intros H [|n] Hn; [done|]. simpl. apply H. lia.
      * intros H n Hn. apply (H (S n)). lia.
Qed.
(** What [m.group()] is when [search] returns [m]: a string the pattern
    consumes in front of the rest of the input. *)
Lemma search_group r s st en :
  search r s = Some (st, en) →
  st ≤ en ∧ en ≤ length s
  ∧ matches r (take (en - st) (drop st s)) (drop en s).
Proof.
  intros H. apply search_from_Some in H as (_ & H1 & H2 & _ & Hm).
  rewrite !Nat.sub_0_r in Hm. simpl in H2.
  apply match_here_sound in Hm as (u & Hu & M).
  assert (length u = en - st) as Hlen.
  { apply (f_equal length) in Hu. rewrite length_app, !length_drop in Hu. lia. }
  split; [done|]. split; [done|].
  by rewrite Hu, <- Hlen, take_app_length.
Qed.
End Facts.

End ReFacts.

(* ================================================================== *)
(** ** [get_number] *)
(* ================================================================== *)

Module NumberFacts.
Import Re Py Spec ReFacts Claim.

(** Greedy repetition stops at the first symbol outside the class when
    the rest of the pattern accepts what follows. *)
Lemma star_run_greedy {A R} (p : A → bool) u rest (k : list A → option R) x :
  forallb p u = true → (∀ c, head rest = Some c → p c = false) →
  k rest = Some x → star_run p (u ++ rest) k = Some x.
Proof.
  intros Hu Hrest Hk. induction u as [|c u IH]; simpl.
  - destruct rest as [|c rest]; simpl; [done|]. by rewrite (Hrest c).
  - simpl in Hu. apply andb_prop in Hu as [-> Hu]. by rewrite IH.
Qed.

Lemma int_digits ds :
  ds ≠ [] → forallb is_digit ds = true →
  int ds = Some (fold_left (λ acc c, 10 * acc + digit_val c)%Z ds 0%Z).
Proof. intros Hne Hd. unfold int. destruct ds; [done|]. by rewrite Hd. Qed.

(** The pattern ['\d+\.'] at a numeral followed by a full stop. *)
Lemma number_re_here ds rest :
  ds ≠ [] → forallb is_digit ds = true →
  match_here number_re (ds ++ "."%char :: rest) = Some rest.
Proof.
  intros Hne Hd. destruct ds as [|d ds]; [done|].
  simpl in Hd. apply andb_prop in Hd as [Hd Hds].
  unfold match_here, number_re, Plus. simpl. rewrite Hd.
  apply star_run_greedy; [done| |done]. by intros c [= <-].
Qed.

Lemma get_number_numeral ds rest :
  ds ≠ [] → forallb is_digit ds = true →
  get_number (ds ++ "."%char :: rest)
  = Some (Some (fold_left (λ acc c, 10 * acc + digit_val c)%Z ds 0%Z),
          strip rest).
Proof.
  intros Hne Hd. unfold get_number, search.
  rewrite (search_from_here _ _ _ _ (number_re_here ds rest Hne Hd)).
  assert (length (ds ++ "."%char :: rest) - length rest = S (length ds)) as ->
    by (rewrite length_app; simpl; lia).
  unfold slice.
  replace (0 + S (length ds) - 0) with (S (length ds)) by lia.
  change (0 + S (length ds)) with (S (length ds)).
  change (drop 0 (ds ++ "."%char :: rest)) with (ds ++ "."%char :: rest).
  change ("."%char :: rest) with (["."%char] ++ rest).
  rewrite (assoc_L (++)).
  assert (length (ds ++ ["."%char]) = S (length ds)) as Hlen
    by (rewrite length_app; simpl; lia).
  rewrite take_app_length', drop_app_length' by done.
  unfold drop_last. rewrite Hlen.
  replace (S (length ds) - 1) with (length ds) by lia.
  rewrite take_app_length. by rewrite (int_digits ds Hne Hd).
Qed.

Lemma has_digit_dot_numeral ds rest :
  ds ≠ [] → forallb is_digit ds = true →
  has_digit_dot (ds ++ "."%char :: rest) = true.
Proof.
  induction ds as [|d ds IH]; [done|]. intros _ Hd.
  simpl in Hd. apply andb_prop in Hd as [Hd Hds].
  destruct ds as [|d' ds].
  - simpl. by rewrite Hd.
  - change ((d :: d' :: ds) ++ "."%char :: rest)
      with (d :: ((d' :: ds) ++ "."%char :: rest)).
    simpl has_digit_dot. simpl in IH. rewrite IH; [|done|done].
    by rewrite orb_true_r.
Qed.

Lemma has_digit_dot_drop n : ∀ s,
  has_digit_dot (drop n s) = true → has_digit_dot s = true.
Proof.
  induction n as [|n IH]; intros s H; [done|].
  destruct s as [|c s]; [done|]. simpl in H. apply IH in H.
  destruct s as [|d s]; [done|].
  change (has_digit_dot (c :: d :: s))
    with ((is_digit c && is_char "." d) || has_digit_dot (d :: s)).
  rewrite H. apply orb_true_r.
Qed.

(** Whatever ['\d+\.'] consumes is a numeral followed by a full stop. *)
Lemma number_re_matches u rest :
  matches number_re u rest →
  ∃ ds, ds ≠ [] ∧ forallb is_digit ds = true ∧ u = ds ++ ["."%char].
Proof.
  unfold number_re, Plus, chr. intros H.
  inversion H as [| |? ? u1 u2 ? H1 H2| | | |]; subst.
  inversion H2; subst.
  match goal with Hc : is_char _ _ = true |- _ =>
    apply Ascii.eqb_eq in Hc; subst end.
  inversion H1 as [| |? ? v1 v2 ? H3 H4| | | |]; subst.
  inversion H3; subst. inversion H4; subst.
  eexists (_ :: _). split; [done|]. split; [|done].
  simpl. apply andb_true_intro. done.
Qed.

Lemma number_re_no_match s :
  has_digit_dot s = false → search number_re s = None.
Proof.
  intros H. apply search_from_None. intros n Hn.
  destruct (match_here number_re (drop n s)) as [rest|] eqn:Hm; [|done].
  destruct (match_here_sound _ _ _ Hm) as (u & Hu & M).
  destruct (number_re_matches _ _ M) as (ds & Hne & Hd & ->).
  rewrite <- (assoc_L (++)) in Hu. simpl in Hu.
  pose proof (has_digit_dot_numeral ds rest Hne Hd) as Hdd.
  rewrite <- Hu in Hdd. apply has_digit_dot_drop in Hdd. congruence.
Qed.

(** [get_number] never raises: what it hands to [int] is a numeral. *)
Lemma get_number_total text : is_Some (get_number text).
Proof.
  unfold get_number. destruct (search number_re text) as [[st en]|] eqn:Hs; [|done].
  apply search_group in Hs as (_ & _ & M).
  apply number_re_matches in M as (ds & Hne & Hd & Hu).
  unfold slice. rewrite Hu. unfold drop_last. rewrite length_app. simpl.
  replace (length ds + 1 - 1) with (length ds) by lia.
  rewrite take_app_length, (int_digits ds Hne Hd). done.
Qed.

(** [decimal] writes digits only, and [int] reads them back. *)
Lemma decimal_uint_digits (u : Decimal.uint) :
  forallb is_digit (chars (NilEmpty.string_of_uint u)) = true.
Proof. induction u; simpl; done. Qed.

Lemma decimal_uint_value (u : Decimal.uint) : ∀ a : nat,
  fold_left (λ acc c, 10 * acc + digit_val c)%Z
    (chars (NilEmpty.string_of_uint u)) (Z.of_nat a)
  = Z.of_nat (Nat.of_uint_acc u a).
Proof.
  induction u as [|u IH|u IH|u IH|u IH|u IH|u IH|u IH|u IH|u IH|u IH];
    intros a; simpl; [done|..];
    rewrite <- IH; f_equal; rewrite Nat.tail_mul_spec;
    unfold digit_val; simpl; lia.
Qed.

Lemma decimal_nonempty n : decimal n ≠ [].
Proof.
  unfold decimal. intros H.
  assert (Nat.to_uint n = Decimal.Nil) as Hn
    by (by destruct (Nat.to_uint n)).
  pose proof (DecimalNat.Unsigned.of_to n) as Hof. rewrite Hn in Hof.
  simpl in Hof. subst n. done.
Qed.

Lemma decimal_value n : int (decimal n) = Some (Z.of_nat n).
Proof.
  rewrite int_digits;
    [|apply decimal_nonempty|apply decimal_uint_digits].
  unfold decimal. rewrite (decimal_uint_value _ 0).
  change (Nat.of_uint_acc (Nat.to_uint n) 0) with (Nat.of_uint (Nat.to_uint n)).
  by rewrite DecimalNat.Unsigned.of_to.
Qed.

(** C5. A text that begins with the numeral of [n] and a full stop gives
    the number [n] and, as cleaned text, what follows the full stop with
    the white space at both ends stripped; a text in which no digit is
    directly followed by a full stop gives no number and is returned
    unchanged. *)
Theorem get_number_spec :
  (∀ (n : nat) (rest : str),
      get_number (decimal n ++ "."%char :: rest)
      = Some (Some (Z.of_nat n), strip rest))
  ∧ (∀ text : str,
      has_digit_dot text = false → get_number text = Some (None, text)).
Proof.
  split.
  - intros n rest.
    rewrite get_number_numeral;
      [|apply decimal_nonempty|apply decimal_uint_digits].
    pose proof (decimal_value n) as Hv.
    rewrite int_digits in Hv;
      [|apply decimal_nonempty|apply decimal_uint_digits].
    by injection Hv as ->.
  - intros text H. unfold get_number. by rewrite number_re_no_match.
Qed.

Lemma get_number_spec_witness :
  get_number (chars "12. A device, comprising: a sensor.")
  = Some (Some 12%Z, chars "A device, comprising: a sensor.")
  ∧ has_digit_dot (chars "A device of claim 1, wherein") = false
  ∧ get_number (chars "A device of claim 1, wherein")
    = Some (None, chars "A device of claim 1, wherein").
Proof.
  split; [|split].
  - exact (proj1 get_number_spec 12 (chars " A device, comprising: a sensor.")).
  - reflexivity.
  - apply (proj2 get_number_spec). reflexivity.
Defined.

End NumberFacts.

(* ================================================================== *)
(** ** [split_into_features] *)
(* ================================================================== *)

Module FeatureFacts.
Import Re Py Spec ReFacts Claim.

Lemma spans_from_last l : ∀ lo hi e,
  spans_from lo hi l → last (map snd l) = Some e → lo < e ∧ e ≤ hi.
Proof.
  induction l as [|[st en] l IH]; intros lo hi e Hsp He; [done|].
  simpl in Hsp. destruct Hsp as (H1 & H2 & H3 & Hsp).
  destruct l as [|[a b] l].
  - simpl in He. injection He as <-. lia.
  - change (last (map snd ((st, en) :: (a, b) :: l)))
      with (last (map snd ((a, b) :: l))) in He.
    specialize (IH _ _ _ Hsp He). lia.
Qed.

Section Finditer.
Context {A : Type} (r : regex A).

(** The pattern never matches the empty string. *)
Hypothesis r_consumes : ∀ s rest,
  match_here r s = Some rest → length rest < length s.

Lemma search_from_consumes s i st en :
  search_from r i s = Some (st, en) → st < en.
Proof.
  intros H. destruct (search_from_Some _ _ _ _ _ H) as (H1 & H2 & H3 & _ & Hm).
  apply r_consumes in Hm. rewrite !length_drop in Hm. lia.
Qed.

Lemma finditer_from_spans : ∀ fuel i s,
  spans_from i (i + length s) (finditer_from fuel r i s).
Proof.
  induction fuel as [|fuel IH]; intros i s; simpl; [done|].
  destruct (search_from r i s) as [[st en]|] eqn:Hs; [|done].
  pose proof (search_from_consumes _ _ _ _ Hs) as Hlt.
  destruct (search_from_Some _ _ _ _ _ Hs) as (H1 & H2 & H3 & _).
  assert ((en =? st) = false) as -> by (apply Nat.eqb_neq; lia).
  assert ((i + length s <? en) = false) as -> by (apply Nat.ltb_ge; lia).
  simpl. repeat split; try lia.
  specialize (IH en (drop (en - i) s)). rewrite length_drop in IH.
  by replace (en + (length s - (en - i))) with (i + length s) in IH by lia.
Qed.

(** With enough fuel the scan ends because nothing matches any more. *)
Lemma finditer_from_exhaustive : ∀ fuel i s,
  length s < fuel →
  let e := default i (last (map snd (finditer_from fuel r i s))) in
  search_from r e (drop (e - i) s) = None.
Proof.
  induction fuel as [|fuel IH]; intros i s Hf; [lia|]. simpl.
  destruct (search_from r i s) as [[st en]|] eqn:Hs.
  - pose proof (search_from_consumes _ _ _ _ Hs) as Hlt.
    destruct (search_from_Some _ _ _ _ _ Hs) as (H1 & H2 & H3 & _).
    assert ((en =? st) = false) as -> by (apply Nat.eqb_neq; lia).
    assert ((i + length s <? en) = false) as -> by (apply Nat.ltb_ge; lia).
    simpl map. specialize (IH en (drop (en - i) s)).
    rewrite length_drop in IH. specialize (IH ltac:(lia)). simpl in IH.
    pose proof (finditer_from_spans fuel en (drop (en - i) s)) as Hsp.
    destruct (finditer_from fuel r en (drop (en - i) s)) as [|[st' en'] l] eqn:Hl.
    + simpl in *. by rewrite Nat.sub_diag in IH.
    + rewrite last_cons. change (map snd ((st', en') :: l)) with (en' :: map snd l) in *.
      destruct (proj2 (last_is_Some (en' :: map snd l)) ltac:(done)) as [e He].
      rewrite He in IH |- *.
      simpl in IH |- *.
      assert (en ≤ e) as Hle
        by (apply (spans_from_last _ _ _ _ Hsp) in He; lia).
      rewrite drop_drop in IH.
      by replace (en - i + (e - en)) with (e - i) in IH by lia.
  - simpl. by rewrite Nat.sub_diag.
Qed.
End Finditer.

(** Each alternative of [split_expression] starts with a delimiter
    character, so a match is never empty. *)
Lemma split_expression_consumes s rest :
  match_here split_expression s = Some rest → length rest < length s.
Proof.
  intros (u & -> & M)%match_here_sound. rewrite length_app.
  enough (0 < length u) by lia.
  unfold split_expression in M.
  repeat match goal with
  | H : matches (Alt _ _) _ _ |- _ => inversion H; subst; clear H
  end;
  match goal with
  | H : matches (Cat (chr _) _) _ _ |- _ =>
      inversion H as [| |? ? u1 u2 ? H1 H2| | | |]; subst;
      inversion H1; subst; simpl; lia
  end.
Qed.

Lemma slice_app (t : str) a b c :
  a ≤ b → b ≤ c → slice t a b ++ slice t b c = slice t a c.
Proof.
  intros Hab Hbc. unfold slice.
  replace (drop b t) with (drop (b - a) (drop a t))
    by (rewrite drop_drop; f_equal; lia).
  rewrite take_take_drop. f_equal. lia.
Qed.

(** The loop of [split_into_features] cuts the text at the match ends. *)
Lemma fold_feature_step text : ∀ ms fl start,
  fold_left (feature_step text) ms (fl, start)
  = (fl ++ cut text start (map snd ms), default start (last (map snd ms))).
Proof.
  induction ms as [|[st en] ms IH]; intros fl start; simpl.
  - by rewrite app_nil_r.
  - rewrite IH. rewrite <- (assoc_L (++)). simpl. f_equal.
    rewrite last_cons. by destruct (last (map snd ms)).
Qed.

Lemma split_into_features_cut text :
  split_into_features text
  = cut text 0 (map snd (finditer split_expression text)).
Proof. unfold split_into_features. by rewrite fold_feature_step. Qed.

Lemma cut_chained text : ∀ ends start, chained start (cut text start ends).
Proof. induction ends as [|e ends IH]; intros start; simpl; [done|]. eauto. Qed.

Lemma cut_endindex text : ∀ ends start,
  map Feature.endindex (cut text start ends) = ends.
Proof.
  induction ends as [|e ends IH]; intros start; simpl; [done|].
  by rewrite IH.
Qed.

Lemma cut_concat text hi : ∀ ms start,
  spans_from start hi ms →
  concat (map Feature.text (cut text start (map snd ms)))
  = slice text start (default start (last (map snd ms))).
Proof.
  induction ms as [|[st en] ms IH]; intros start Hsp; simpl.
  - unfold slice. by rewrite Nat.sub_diag.
  - destruct Hsp as (H1 & H2 & H3 & Hsp). rewrite (IH _ Hsp), last_cons.
    destruct (last (map snd ms)) as [e|] eqn:He; simpl.
    + apply (spans_from_last _ _ _ _ Hsp) in He. apply slice_app; lia.
    + apply slice_app; lia.
Qed.

Lemma cut_each text hi : ∀ ms start,
  spans_from start hi ms →
  Forall (λ f, Feature.startindex f < Feature.endindex f
               ∧ Feature.endindex f ≤ hi
               ∧ Feature.text f
                 = slice text (Feature.startindex f) (Feature.endindex f))
         (cut text start (map snd ms)).
Proof.
  induction ms as [|[st en] ms IH]; intros start Hsp; simpl; [done|].
  destruct Hsp as (H1 & H2 & H3 & Hsp). constructor; [simpl|by apply IH].
  repeat split; lia.
Qed.

(** The features, in terms of the delimiter matches. *)
Lemma split_into_features_facts (text : str) :
  let fs := split_into_features text in
  chained 0 fs
  ∧ map Feature.endindex fs = map snd (finditer split_expression text)
  ∧ Forall (λ f, Feature.startindex f < Feature.endindex f
                 ∧ Feature.endindex f ≤ length text
                 ∧ Feature.text f
                   = slice text (Feature.startindex f) (Feature.endindex f)) fs
  ∧ concat (map Feature.text fs) = take (last_match_end text) text.
Proof.
  cbv zeta. rewrite split_into_features_cut.
  pose proof (finditer_from_spans _ split_expression_consumes
                (S (length text)) 0 text) as Hsp.
  fold (finditer split_expression text) in Hsp.
  change (0 + length text) with (length text) in Hsp.
  split; [apply cut_chained|]. split; [apply cut_endindex|].
  split; [by apply cut_each|].
  rewrite (cut_concat _ _ _ _ Hsp). unfold slice, last_match_end.
  by rewrite Nat.sub_0_r.
Qed.

(** C10. The features are contiguous: the first starts at offset 0 and
    each next one starts where the one before ends; their end offsets are
    the end offsets of the delimiter matches; each is a non-empty slice of
    the text; and their texts, concatenated, are the prefix of the text
    that ends where the last delimiter match ends.  No delimiter matches
    after that offset, and the text from there on is in no feature. *)
Theorem split_into_features_contiguous (text : str) :
  let fs := split_into_features text in
  chained 0 fs
  ∧ map Feature.endindex fs = map snd (finditer split_expression text)
  ∧ Forall (λ f, Feature.startindex f < Feature.endindex f
                 ∧ Feature.endindex f ≤ length text
                 ∧ Feature.text f
                   = slice text (Feature.startindex f) (Feature.endindex f)) fs
  ∧ concat (map Feature.text fs) = take (last_match_end text) text
  ∧ search_from split_expression (last_match_end text)
      (drop (last_match_end text) text) = None.
Proof.
  cbv zeta.
  destruct (split_into_features_facts text) as (Hch & Hend & Hall & Hcat).
  repeat (split; [done|]).
  pose proof (finditer_from_exhaustive _ split_expression_consumes
                (S (length text)) 0 text ltac:(lia)) as Hex.
  cbv zeta in Hex. fold (finditer split_expression text) in Hex.
  fold (last_match_end text) in Hex. by rewrite Nat.sub_0_r in Hex.
Qed.

(** C3, amended.  When the last delimiter match ends at the end of the
    text, the texts of the features, concatenated in order, are the claim
    text, and the offsets split it from 0 to its length: the first
    feature starts at 0, each next one starts where the one before ends,
    none is empty, and the last one ends at the length of the text. *)
Theorem split_into_features_round_trip (text : str) :
  last_match_end text = length text →
  let fs := split_into_features text in
  concat (map Feature.text fs) = text
  ∧ chained 0 fs
  ∧ Forall (λ f, Feature.startindex f < Feature.endindex f) fs
  ∧ default 0 (last (map Feature.endindex fs)) = length text.
Proof.
  intros Hlast. cbv zeta.
  destruct (split_into_features_facts text) as (Hch & Hend & Hall & Hcat).
  split; [|split; [done|split]].
  - rewrite Hcat, Hlast. apply firstn_all.
  - eapply Forall_impl; [exact Hall|]. by intros f (? & _).
  - rewrite Hend. exact Hlast.
Qed.

Lemma split_into_features_round_trip_witness :
  let text := chars "A method, comprising: heating a blank; and cooling it." in
  last_match_end text = length text
  ∧ concat (map Feature.text (split_into_features text)) = text.
Proof.
  cbv zeta.
  assert (last_match_end
            (chars "A method, comprising: heating a blank; and cooling it.")
          = length
              (chars "A method, comprising: heating a blank; and cooling it."))
    as H by (vm_compute; reflexivity).
  split; [exact H|]. exact (proj1 (split_into_features_round_trip _ H)).
Defined.

(** C3 as stated fails: without a delimiter at the very end, the
    features stop at the last delimiter and the rest of the text is in
    none of them. *)
Lemma split_into_features_not_onto :
  let text := chars "A device comprising: a sensor; and a lens" in
  concat (map Feature.text (split_into_features text))
  = chars "A device comprising: a sensor; and"
  ∧ concat (map Feature.text (split_into_features text)) ≠ text
  ∧ default 0 (last (map Feature.endindex (split_into_features text)))
    ≠ length text.
Proof.
  cbv zeta. split; [vm_compute; reflexivity|].
  split; [vm_compute; discriminate|vm_compute; lia].
Qed.

End FeatureFacts.

(* ================================================================== *)
(** ** [detect_dependency] *)
(* ================================================================== *)

Module DependencyFacts.
Import Re Py Spec ReFacts NumberFacts Claim.

Lemma is_char_eq a c : is_char a c = true → c = a.
Proof. unfold is_char. by intros ->%Ascii.eqb_eq. Qed.

(** White space is none of the characters the patterns spell out. *)
Lemma space_is_not a w :
  is_space a = false → is_space w = true → is_char a w = false.
Proof.
  intros Ha Hw. destruct (is_char a w) eqn:E; [|done].
  apply is_char_eq in E. congruence.
Qed.

Lemma space_not_digit w : is_space w = true → is_digit w = false.
Proof.
  destruct w as [[] [] [] [] [] [] [] []]; vm_compute; congruence.
Qed.

(** A pattern followed by [Some] succeeds wherever its optional tail is
    tried. *)
Lemma run_Opt_Some {A} (r : regex A) s :
  ∃ u rest, s = u ++ rest ∧ run (Opt r) s Some = Some rest.
Proof.
  unfold Opt. simpl. destruct (run r s Some) as [x|] eqn:E.
  - destruct (run_sound _ _ _ _ E) as (u & rest & -> & _ & [= ->]). eauto.
  - by exists [], s.
Qed.

Lemma star_run_total {A} (p : A → bool) (k : list A → option (list A)) :
  (∀ s, ∃ u rest, s = u ++ rest ∧ k s = Some rest) →
  ∀ s, ∃ u rest, s = u ++ rest ∧ star_run p s k = Some rest.
Proof.
  intros Hk. induction s as [|c s IH]; simpl; [apply Hk|].
  destruct (p c); [|apply Hk].
  destruct IH as (u & rest & -> & ->). by exists (c :: u), rest.
Qed.

(** The first digits of a string that starts with none. *)
Lemma num_re_first nd ds rest : ∀ i,
  forallb (λ c, negb (is_digit c)) nd = true →
  ds ≠ [] → forallb is_digit ds = true →
  (∀ c, head rest = Some c → is_digit c = false) →
  search_from num_re i (nd ++ ds ++ rest)
  = Some (i + length nd, i + length nd + length ds).
Proof.
  induction nd as [|c nd IH]; intros i Hnd Hne Hds Hrest.
  - simpl app. destruct ds as [|d ds]; [done|].
    simpl in Hds. apply andb_prop in Hds as [Hd Hds].
    assert (match_here num_re ((d :: ds) ++ rest) = Some rest) as Hm.
    { unfold match_here, num_re, Plus. simpl. rewrite Hd.
      by apply star_run_greedy. }
    rewrite (search_from_here _ _ _ _ Hm). rewrite length_app. simpl.
    f_equal. f_equal; lia.
  - simpl in Hnd. apply andb_prop in Hnd as [Hc Hnd].
    apply negb_true_iff in Hc.
    simpl. unfold match_here at 1, num_re at 1, Plus. simpl. rewrite Hc.
    rewrite (IH (S i)) by done. f_equal. f_equal; lia.
Qed.

(** The pattern up to and including the claim number, at a white space
    followed by "claims 2 to 5": it hands the text after the 2 to the
    rest of the pattern. *)
Lemma dependency_head {R} w post (k : str → option R) x :
  is_space w = true →
  k (chars " to 5" ++ post) = Some x →
  run (Seq [ws; either "C" "c"; lit "laim"; Opt (chr "s"); ws; Plus is_digit])
      (w :: chars "claims 2 to 5" ++ post) k
  = Some x.
Proof. intros Hw Hk. simpl. rewrite Hw. simpl in Hk. by rewrite Hk. Qed.

(** The optional preposition in front of it. *)
Lemma dependency_preposition {R} prep w s (k : str → option R) x :
  prep ∈ [EmptyString; "of"; "to"; "with"; "in"]%string →
  is_space w = true →
  k (w :: s) = Some x →
  run (Opt (Alt (lit "of") (Alt (lit "to") (Alt (lit "with") (lit "in")))))
      (chars prep ++ w :: s) k
  = Some x.
Proof.
  intros Hprep Hw Hk.
  apply elem_of_cons in Hprep as [->|Hprep].
  - cbn -[is_char]. rewrite !(space_is_not _ w) by done. done.
  - repeat (apply elem_of_cons in Hprep as [->|Hprep]);
      [| | | |by apply elem_of_nil in Hprep]; simpl; by rewrite Hk.
Qed.

(** The range and the "wherein" after the claim number. *)
Lemma dependency_tail post :
  ∃ u rest, post = u ++ rest ∧
    run (Cat (Opt (Alt (Seq [ws; lit "to"; ws; Plus is_digit])
                       (Seq [ws; lit "or"; ws; either "C" "c"; lit "laim";
                             ws; Plus is_digit])))
             (Opt (Seq [chr ","; ws; lit "wherein"])))
        (chars " to 5" ++ post) Some
    = Some rest.
Proof.
  set (tail := Opt (Seq [chr ","; ws; lit "wherein"])).
  destruct (star_run_total is_digit (λ s', run tail s' Some)
              (run_Opt_Some _) post) as (u & rest & -> & Hs).
  exists u, rest. split; [done|].
  change (run (Cat ?a tail) ?s Some) with (run a s (λ s', run tail s' Some)).
  generalize dependent (λ s', run tail s' Some). intros k Hs.
  simpl. by rewrite Hs.
Qed.

Lemma dependency_re_here prep w post :
  prep ∈ [EmptyString; "of"; "to"; "with"; "in"]%string →
  is_space w = true →
  ∃ u rest, post = u ++ rest ∧
    match_here dependency_re (chars prep ++ w :: chars "claims 2 to 5" ++ post)
    = Some rest.
Proof.
  intros Hprep Hw. destruct (dependency_tail post) as (u & rest & -> & Ht).
  exists u, rest. split; [done|].
  unfold match_here, dependency_re.
  match goal with |- run (Seq (?p :: ?a :: ?b :: ?c :: ?d :: ?e :: ?f :: ?g :: ?h :: nil)) ?s Some = _ =>
    change (run p s (λ s1, run (Seq [a; b; c; d; e; f]) s1
                             (λ s2, run (Cat g h) s2 Some)) = Some rest)
  end.
  eapply dependency_preposition; [done|done|].
  eapply dependency_head; [done|]. exact Ht.
Qed.

Lemma slice_middle (a b c : str) :
  slice (a ++ b ++ c) (length a) (length a + length b) = b.
Proof.
  unfold slice. rewrite drop_app_length.
  replace (length a + length b - length a) with (length b) by lia.
  by rewrite take_app_length.
Qed.

Lemma slice_inner (a b c : str) :
  slice (a ++ b ++ c) (length a) (length a + (length (b ++ c) - length c)) = b.
Proof.
  replace (length (b ++ c) - length c) with (length b)
    by (rewrite length_app; lia).
  apply slice_middle.
Qed.

(** The preposition, the white space and "claims " hold no digit. *)
Lemma dependency_phrase_no_digit prep w :
  prep ∈ [EmptyString; "of"; "to"; "with"; "in"]%string →
  is_space w = true →
  forallb (λ c, negb (is_digit c)) (chars prep ++ w :: chars "claims ") = true.
Proof.
  intros Hprep Hw. pose proof (space_not_digit w Hw) as Hd.
  repeat (apply elem_of_cons in Hprep as [->|Hprep]);
    [| | | | |by apply elem_of_nil in Hprep]; simpl; by rewrite Hd.
Qed.

Lemma preceding_re_here w post :
  is_space w = true →
  is_Some (match_here preceding_re (w :: chars "preceding claims" ++ post)).
Proof.
  intros Hw. unfold match_here, preceding_re.
  match goal with |- is_Some (run (Seq (?a :: ?b :: ?c :: ?d :: ?e :: ?f :: ?g :: nil)) ?s Some) =>
    change (is_Some (run (Seq [a; b; c; d; e; f]) s (λ s', run g s' Some)))
  end.
  pose proof (run_Opt_Some (Seq [chr ","; ws; lit "wherein"]) post)
    as (u & rest & _ & Hk).
  set (k := λ s', run (Opt (Seq [chr ","; ws; lit "wherein"])) s' Some).
  change (k post = Some rest) in Hk. clearbody k.
  simpl. rewrite Hw, Hk. done.
Qed.

(** Whatever the primary pattern consumes holds a digit. *)
Lemma matches_Cat_inv {A} (r1 r2 : regex A) u rest :
  matches (Cat r1 r2) u rest →
  ∃ u1 u2, u = u1 ++ u2 ∧ matches r1 u1 (u2 ++ rest) ∧ matches r2 u2 rest.
Proof. intros H. inversion H; subst. eauto. Qed.

Lemma dependency_re_digit u rest :
  matches dependency_re u rest → ∃ c, c ∈ u ∧ is_digit c = true.
Proof.
  unfold dependency_re. simpl Seq. intros H.
  do 6 (apply matches_Cat_inv in H as (? & ? & -> & _ & H)).
  apply matches_Cat_inv in H as (u1 & u2 & -> & H & _).
  unfold Plus in H. apply matches_Cat_inv in H as (? & ? & -> & H & _).
  inversion H; subst. eexists. split; [|done].
  rewrite !elem_of_app. do 6 right. left. left. apply list_elem_of_here.
Qed.

(** The first run of digits of a string that holds a digit. *)
Lemma first_digits u :
  (∃ c, c ∈ u ∧ is_digit c = true) →
  ∃ nd ds rest,
    u = nd ++ ds ++ rest
    ∧ forallb (λ c, negb (is_digit c)) nd = true
    ∧ ds ≠ [] ∧ forallb is_digit ds = true
    ∧ (∀ c, head rest = Some c → is_digit c = false).
Proof.
  induction u as [|x u IH]; intros (c & Hc & Hd).
  - by apply elem_of_nil in Hc.
  - destruct (is_digit x) eqn:Hx.
    + clear IH Hc Hd c.
      assert (∃ ds rest, u = ds ++ rest ∧ forallb is_digit ds = true
                ∧ (∀ c, head rest = Some c → is_digit c = false))
        as (ds & rest & -> & Hds & Hrest).
      { clear. induction u as [|y u IH].
        - by exists [], [].
        - destruct (is_digit y) eqn:Hy.
          + destruct IH as (ds & rest & -> & Hds & Hrest).
            exists (y :: ds), rest. simpl. by rewrite Hy, Hds.
          + exists [], (y :: u). split; [done|]. split; [done|].
            by intros c [= <-]. }
      exists [], (x :: ds), rest. simpl. by rewrite Hx, Hds.
    + apply elem_of_cons in Hc as [->|Hc]; [congruence|].
      destruct IH as (nd & ds & rest & -> & Hnd & Hne & Hds & Hrest); [by eauto|].
      exists (x :: nd), ds, rest. simpl. by rewrite Hx, Hnd.
Qed.

(** [detect_dependency] never raises. *)
Lemma detect_dependency_total text : is_Some (detect_dependency text).
Proof.
  unfold detect_dependency.
  destruct (search dependency_re text) as [[st en]|] eqn:Hs.
  - apply search_group in Hs as (_ & _ & M).
    apply dependency_re_digit, first_digits in M
      as (nd & ds & rest & Hu & Hnd & Hne & Hds & Hrest).
    cbv zeta. fold (slice text st en) in Hu. rewrite Hu. unfold search.
    rewrite (num_re_first nd ds rest 0 Hnd Hne Hds Hrest).
    change (is_Some (int (slice (nd ++ ds ++ rest) (length nd)
                                (length nd + length ds)))).
    rewrite slice_middle, (int_digits ds Hne Hds). done.
  - by destruct (search preceding_re text).
Qed.

(** C6, amended.  The value is 2 when the leftmost match of the primary
    pattern is at a white space followed by "claims 2 to 5", with or
    without one of the prepositions of, to, with, in directly before the
    white space; it is 1 when the primary pattern matches nowhere and the
    text has a white space followed by "preceding claims"; it is 0 when
    neither pattern matches anywhere. *)
Theorem detect_dependency_spec :
  (∀ (pre : str) (prep : string) (w : ascii) (post : str),
      prep ∈ [EmptyString; "of"; "to"; "with"; "in"]%string →
      is_space w = true →
      no_match_before dependency_re (length pre)
        (pre ++ chars prep ++ w :: chars "claims 2 to 5" ++ post) = true →
      detect_dependency
        (pre ++ chars prep ++ w :: chars "claims 2 to 5" ++ post)
      = Some 2%Z)
  ∧ (∀ (pre : str) (w : ascii) (post : str),
      is_space w = true →
      search dependency_re (pre ++ w :: chars "preceding claims" ++ post)
      = None →
      detect_dependency (pre ++ w :: chars "preceding claims" ++ post)
      = Some 1%Z)
  ∧ (∀ text : str,
      search dependency_re text = None → search preceding_re text = None →
      detect_dependency text = Some 0%Z).
Proof.
  split; [|split].
  - intros pre prep w post Hprep Hw Hno.
    destruct (dependency_re_here prep w post Hprep Hw) as (u & rest & -> & Hm).
    unfold detect_dependency, search.
    rewrite (search_from_skip _ _ _ 0 Hno) by (rewrite length_app; lia).
    rewrite drop_app_length, (search_from_here _ _ _ _ Hm).
    set (phrase := chars prep ++ w :: chars "claims ").
    assert (chars prep ++ w :: chars "claims 2 to 5" ++ u ++ rest
            = (phrase ++ ["2"%char] ++ chars " to 5" ++ u) ++ rest) as ->.
    { unfold phrase. rewrite <- !(assoc_L (++)). simpl. done. }
    cbv zeta. change (0 + length pre) with (length pre).
    rewrite !slice_inner.
    rewrite (num_re_first phrase ["2"%char] (chars " to 5" ++ u) 0);
      [|by apply dependency_phrase_no_digit|done|done|by intros c [= <-]].
    simpl mbind. simpl option_bind.
    change (0 + length phrase) with (length phrase).
    change (int (slice (phrase ++ ["2"%char] ++ chars " to 5" ++ u)
                  (length phrase) (length phrase + length ["2"%char]))
            = Some 2%Z).
    by rewrite slice_middle.
  - intros pre w post Hw Hno. unfold detect_dependency. rewrite Hno.
    destruct (search preceding_re _) eqn:E; [done|].
    unfold search in E.
    pose proof (proj1 (search_from_None _ _ _) E (length pre)) as Hn.
    rewrite drop_app_length in Hn.
    destruct (preceding_re_here w post Hw) as [x Hx].
    rewrite Hn in Hx; [done|]. rewrite length_app. lia.
  - intros text H1 H2. unfold detect_dependency. by rewrite H1, H2.
Qed.

Lemma detect_dependency_spec_witness :
  detect_dependency
    (chars "A device according " ++ chars "to" ++ " "%char
       :: chars "claims 2 to 5" ++ chars ", wherein the sensor is optical.")
  = Some 2%Z
  ∧ detect_dependency
      (chars "A device as in any of the" ++ " "%char
         :: chars "preceding claims" ++ chars ", wherein the lens is flat.")
    = Some 1%Z
  ∧ detect_dependency (chars "A device comprising a sensor.") = Some 0%Z.
Proof.
  split; [|split].
  - apply (proj1 detect_dependency_spec).
    + repeat constructor.
    + reflexivity.
    + vm_compute. reflexivity.
  - apply (proj1 (proj2 detect_dependency_spec)).
    + reflexivity.
    + vm_compute. reflexivity.
  - apply (proj2 (proj2 detect_dependency_spec)).
    + vm_compute. reflexivity.
    + vm_compute. reflexivity.
Defined.

(** C6 as stated fails.  A text that contains "claims 2 to 5" gives 1
    when an earlier claim reference comes first, and 0 when no white space
    stands before "claims"; a text without a primary match that contains
    "preceding claims" gives 0 when no white space stands before
    "preceding". *)
Lemma detect_dependency_not_by_substring :
  (contains (chars "claims 2 to 5")
     (chars "A device according to claim 1 or any of claims 2 to 5.") = true
   ∧ detect_dependency
       (chars "A device according to claim 1 or any of claims 2 to 5.")
     = Some 1%Z)
  ∧ (contains (chars "claims 2 to 5") (chars "claims 2 to 5") = true
     ∧ detect_dependency (chars "claims 2 to 5") = Some 0%Z)
  ∧ (contains (chars "preceding claims")
       (chars "A sensor as in the above/preceding claims.") = true
     ∧ search dependency_re
         (chars "A sensor as in the above/preceding claims.") = None
     ∧ detect_dependency (chars "A sensor as in the above/preceding claims.")
       = Some 0%Z).
Proof. repeat split; vm_compute; reflexivity. Qed.

End DependencyFacts.

(* ================================================================== *)
(** ** [label_nounphrases] *)
(* ================================================================== *)

Module NounPhraseFacts.
Import Re Py Nltk Spec ReFacts Claim.

(** *** The mapping as a dict *)

Lemma dict_get_elem {V} (d : dict V) k v :
  dict_get d k = Some v → (k, v) ∈ d.
Proof.
  induction d as [|[k' v'] d IH]; simpl; [done|].
  destruct (String.eqb k' k) eqn:E.
  - apply String.eqb_eq in E as ->. intros [= ->]. apply list_elem_of_here.
  - intros H. apply list_elem_of_further. by apply IH.
Qed.

Lemma dict_get_None {V} (d : dict V) k :
  dict_get d k = None ↔ k ∉ map fst d.
Proof.
  induction d as [|[k' v'] d IH]; simpl.
  - split; [|done]. intros _ H. by apply elem_of_nil in H.
  - destruct (String.eqb k' k) eqn:E.
    + apply String.eqb_eq in E as ->. split; [done|].
      intros H. destruct H. apply list_elem_of_here.
    + apply String.eqb_neq in E. rewrite IH, not_elem_of_cons.
      split; [by intros ?; split|by intros [_ ?]].
Qed.

Lemma dict_get_key {V} (d : dict V) k :
  k ∈ map fst d → is_Some (dict_get d k).
Proof.
  intros H. destruct (dict_get d k) eqn:E; [done|].
  by apply dict_get_None in E.
Qed.

Lemma dict_set_new {V} (d : dict V) k v :
  dict_get d k = None → dict_set d k v = d ++ [(k, v)].
Proof.
  induction d as [|[k' v'] d IH]; simpl; [done|].
  destruct (String.eqb k' k); [done|]. intros H. by rewrite IH.
Qed.

Lemma dict_get_app {V} (d d' : dict V) k :
  dict_get (d ++ d') k
  = match dict_get d k with Some v => Some v | None => dict_get d' k end.
Proof.
  induction d as [|[k' v'] d IH]; simpl; [done|].
  by destruct (String.eqb k' k).
Qed.

(** *** Identifiers in order *)

Lemma ids_in_order_nil : ids_in_order [].
Proof. done. Qed.

Lemma ids_in_order_snoc m s :
  ids_in_order m → ids_in_order (m ++ [(s, length m + 1)]).
Proof.
  unfold ids_in_order. intros H.
  rewrite map_app, length_app, H. simpl.
  rewrite Nat.add_1_r, seq_S. done.
Qed.

Lemma ids_in_order_positive m s v :
  ids_in_order m → dict_get m s = Some v → 1 ≤ v ≤ length m.
Proof.
  intros H Hg. apply dict_get_elem in Hg.
  assert (v ∈ map snd m) as Hv.
  { apply list_elem_of_In, in_map_iff. exists (s, v).
    split; [done|]. by apply list_elem_of_In. }
  rewrite H in Hv. apply elem_of_seq in Hv. lia.
Qed.

Lemma found_in_order m s :
  ids_in_order m → found (dict_get m s) = dict_get m s.
Proof.
  intros H. destruct (dict_get m s) as [v|] eqn:E; [|done].
  apply (ids_in_order_positive _ _ _ H) in E. destruct v; [lia|done].
Qed.

Section Resolve.
Variable ends_with : string → string → bool.

(** *** The three cases of [resolve] *)

Lemma resolve_exact m s np_id :
  ids_in_order m → dict_get m s = Some np_id →
  resolve ends_with m s = Some (np_id, m).
Proof.
  intros Hm Hg. unfold resolve. by rewrite (found_in_order _ _ Hm), Hg.
Qed.

Lemma resolve_suffix m s k1 k k2 :
  dict_get m s = None →
  map fst m = k1 ++ k :: k2 →
  Forall (λ k', ends_with s k' = false) k1 → ends_with s k = true →
  ∃ np_id, dict_get m k = Some np_id
           ∧ resolve ends_with m s = Some (np_id, m).
Proof.
  intros Hg Hkeys Hk1 Hk. unfold resolve. rewrite Hg. simpl.
  rewrite Hkeys, filter_app, filter_cons_True by done.
  assert (filter (λ np, ends_with s np = true) k1 = []) as ->.
  { clear -Hk1. induction Hk1 as [|x l Hx Hl IH]; [done|].
    rewrite filter_cons_False; [done|congruence]. }
  simpl.
  destruct (dict_get_key m k) as [np_id Hid].
  { rewrite Hkeys. apply elem_of_app. right. apply list_elem_of_here. }
  exists np_id. by rewrite Hid.
Qed.

Lemma resolve_fresh m s :
  dict_get m s = None →
  Forall (λ k, ends_with s k = false) (map fst m) →
  resolve ends_with m s
  = Some (length m + 1, m ++ [(s, length m + 1)]).
Proof.
  intros Hg Hk. unfold resolve. rewrite Hg. simpl.
  assert (filter (λ np, ends_with s np = true) (map fst m) = []) as ->.
  { clear -Hk. induction Hk as [|x l Hx Hl IH]; [done|].
    rewrite filter_cons_False; [done|congruence]. }
  by rewrite dict_set_new.
Qed.

(** [resolve] never raises, and either leaves the mapping alone and
    returns one of its identifiers, or appends a new key with the next
    identifier. *)
Lemma resolve_cases m s :
  ids_in_order m →
  (∃ np_id, resolve ends_with m s = Some (np_id, m)
            ∧ np_id ∈ map snd m
            ∧ (dict_get m s = Some np_id
               ∨ dict_get m s = None
                 ∧ ∃ k1 k k2, map fst m = k1 ++ k :: k2
                     ∧ Forall (λ k', ends_with s k' = false) k1
                     ∧ ends_with s k = true
                     ∧ dict_get m k = Some np_id))
  ∨ (resolve ends_with m s = Some (length m + 1, m ++ [(s, length m + 1)])
     ∧ dict_get m s = None
     ∧ Forall (λ k, ends_with s k = false) (map fst m)).
Proof.
  intros Hm.
  assert (∀ k v, dict_get m k = Some v → v ∈ map snd m) as Hval.
  { intros k v Hg%dict_get_elem. apply list_elem_of_In, in_map_iff.
    exists (k, v). split; [done|]. by apply list_elem_of_In. }
  destruct (dict_get m s) as [np_id|] eqn:Hg.
  - left. exists np_id. split; [by apply resolve_exact|].
    split; [by eapply Hval|by left].
  - destruct (Forall_Exists_dec (λ k, ends_with s k = false)
                (λ k, ends_with s k ≠ false)
                (λ k, bool_dec (ends_with s k) false) (map fst m))
      as [Hall|Hex].
    + right. split; [by apply resolve_fresh|done].
    + left.
      assert (∃ k1 k k2, map fst m = k1 ++ k :: k2
                ∧ Forall (λ k', ends_with s k' = false) k1
                ∧ ends_with s k = true) as (k1 & k & k2 & Hk & H1 & H2).
      { clear -Hex. induction Hex as [x l Hx|x l Hx IH].
        - exists [], x, l. split; [done|]. split; [done|].
          by apply not_false_is_true.
        - destruct (ends_with s x) eqn:Ex.
          + exists [], x, l. done.
          + destruct IH as (k1 & k & k2 & -> & H1 & H2).
            exists (x :: k1), k, k2. split; [done|]. split; [|done].
            by constructor. }
      destruct (resolve_suffix m s k1 k k2 Hg Hk H1 H2) as (np_id & Hid & Hr).
      exists np_id. split; [done|]. split; [by eapply Hval|].
      right. split; [done|]. by exists k1, k, k2.
Qed.

(** *** What one step keeps *)

Lemma ids_in_order_prefix m ext : ids_in_order (m ++ ext) → ids_in_order m.
Proof.
  unfold ids_in_order. rewrite map_app, length_app, seq_app.
  intros H. apply app_inj_1 in H as [H _]; [done|].
  by rewrite length_map, length_seq.
Qed.

Lemma first_seen_prefix k k' :
  first_seen ends_with (k ++ k') → first_seen ends_with k.
Proof.
  intros H k1 s k2 ->. apply (H k1 s (k2 ++ k')).
  by rewrite <- (assoc_L (++)).
Qed.

Lemma first_seen_snoc keys s :
  first_seen ends_with keys → s ∉ keys →
  Forall (λ k, ends_with s k = false) keys →
  first_seen ends_with (keys ++ [s]).
Proof.
  intros Hfs Hs Hk k1 s' k2 Heq.
  destruct k2 as [|x k2 _] using rev_ind.
  - apply app_inj_tail in Heq as [-> ->].
    apply Forall_forall. intros k Hin. split.
    + intros ->. done.
    + by apply (proj1 (Forall_forall _ _) Hk).
  - change (k1 ++ s' :: k2 ++ [x]) with (k1 ++ (s' :: k2) ++ [x]) in Heq.
    rewrite (assoc_L (++)) in Heq. apply app_inj_tail in Heq as [-> _].
    by apply (Hfs k1 s' k2).
Qed.

Lemma resolve_step m s :
  ids_in_order m → first_seen ends_with (map fst m) →
  ∃ np_id m1,
    resolve ends_with m s = Some (np_id, m1)
    ∧ ids_in_order m1 ∧ first_seen ends_with (map fst m1)
    ∧ (m1 = m ∨ m1 = m ++ [(s, np_id)])
    ∧ np_id ∈ map snd m1
    ∧ resolve ends_with m1 s = Some (np_id, m1).
Proof.
  intros Hm Hfs.
  destruct (resolve_cases m s Hm)
    as [(np_id & Hr & Hin & _)|(Hr & Hg & Hall)].
  - exists np_id, m. eauto 10.
  - exists (length m + 1), (m ++ [(s, length m + 1)]).
    pose proof (ids_in_order_snoc m s Hm) as Hm1.
    split; [done|]. split; [done|]. split.
    { rewrite map_app. apply first_seen_snoc; [done| |done].
      by apply dict_get_None. }
    split; [by right|]. split.
    { rewrite map_app. apply elem_of_app. right. apply list_elem_of_here. }
    apply resolve_exact; [done|].
    rewrite dict_get_app, Hg. simpl. by rewrite String.eqb_refl.
Qed.

(** An identifier, once given, stays: resolving the same string against
    the mapping as it has grown since gives the same identifier and
    adds nothing. *)
Lemma resolve_stable m1 ext s np_id :
  ids_in_order (m1 ++ ext) → first_seen ends_with (map fst (m1 ++ ext)) →
  resolve ends_with m1 s = Some (np_id, m1) →
  resolve ends_with (m1 ++ ext) s = Some (np_id, m1 ++ ext).
Proof.
  intros Hm Hfs Hr.
  pose proof (ids_in_order_prefix _ _ Hm) as Hm1.
  destruct (resolve_cases m1 s Hm1)
    as [(np_id' & Hr' & _ & Hcase)|(Hr' & _)].
  - rewrite Hr in Hr'. injection Hr' as <-.
    destruct Hcase as [Hg|(Hg & k1 & k & k2 & Hk & H1 & H2 & Hgk)].
    + apply resolve_exact; [done|]. by rewrite dict_get_app, Hg.
    + assert (dict_get (m1 ++ ext) s = None) as Hg'.
      { rewrite dict_get_app, Hg. apply dict_get_None. intros Hin.
        apply list_elem_of_split in Hin as (e1 & e2 & He).
        rewrite map_app, Hk, He in Hfs.
        assert (Forall (λ k', k' ≠ s ∧ ends_with s k' = false)
                  (k1 ++ k :: k2 ++ e1)) as HF.
        { apply (Hfs (k1 ++ k :: k2 ++ e1) s e2).
          by repeat first [rewrite <- (assoc_L (++)) | progress simpl]. }
        clear Hfs. rename HF into Hfs.
        apply Forall_app in Hfs as [_ Hfs].
        apply Forall_cons in Hfs as [[_ Hfs] _]. congruence. }
      destruct (resolve_suffix (m1 ++ ext) s k1 k (k2 ++ map fst ext))
        as (np_id' & Hid & Hres); [done| |done|done|].
      { rewrite map_app, Hk, <- (assoc_L (++)). done. }
      rewrite dict_get_app, Hgk in Hid. by injection Hid as <-.
  - rewrite Hr in Hr'. injection Hr' as _ Hbad.
    apply (f_equal length) in Hbad. rewrite length_app in Hbad.
    simpl in Hbad. lia.
Qed.

(** *** The first loop *)

Lemma np_loop_spec : ∀ subtrees m p,
  ids_in_order m → first_seen ends_with (map fst m) →
  ∃ ids ext,
    np_loop ends_with subtrees m p
    = Some (m ++ ext, insert_all (zip (map fst subtrees) ids) p)
    ∧ length ids = length subtrees
    ∧ ids_in_order (m ++ ext)
    ∧ first_seen ends_with (map fst (m ++ ext))
    ∧ map fst ext `sublist_of` map (λ st, np_string st.2) subtrees
    ∧ Forall2 (λ st np_id,
                 np_id ∈ map snd (m ++ ext)
                 ∧ resolve ends_with (m ++ ext) (np_string st.2)
                   = Some (np_id, m ++ ext))
              subtrees ids.
Proof.
  induction subtrees as [|[i ls] subtrees IH]; intros m p Hm Hfs.
  - exists [], []. rewrite app_nil_r. simpl. repeat split; try done.
  - destruct (resolve_step m (np_string ls) Hm Hfs)
      as (np_id & m1 & Hr & Hm1 & Hfs1 & Hext & Hin & Hre).
    destruct (IH m1 (<[i := np_id]> p) Hm1 Hfs1)
      as (ids & ext & Hloop & Hlen & Hm' & Hfs' & Hsub & Hall).
    assert (∃ ext1, m1 = m ++ ext1
              ∧ map fst ext1 `sublist_of` [np_string ls])
      as (ext1 & -> & Hsub1).
    { destruct Hext as [->| ->].
      - exists []. rewrite app_nil_r. split; [done|]. apply sublist_nil_l.
      - exists [(np_string ls, np_id)]. done. }
    exists (np_id :: ids), (ext1 ++ ext).
    rewrite (assoc_L (++)). simpl. rewrite Hr. simpl.
    split; [exact Hloop|]. split; [by rewrite Hlen|].
    split; [done|]. split; [done|]. split.
    { rewrite map_app.
      change (np_string ls :: ?l) with ([np_string ls] ++ l).
      by apply sublist_app. }
    constructor; [|done]. split.
    + rewrite map_app. apply elem_of_app. by left.
    + by apply resolve_stable.
Qed.
End Resolve.

(** *** The second loop *)

Lemma subtrees_NP_index t : ∀ i j,
  j ∈ map fst (subtrees_NP i t) → i ≤ j.
Proof.
  induction t as [|[x|ls] t IH]; intros i j Hj; simpl in Hj.
  - by apply elem_of_nil in Hj.
  - apply IH in Hj. lia.
  - apply elem_of_cons in Hj as [->|Hj]; [lia|]. apply IH in Hj. lia.
Qed.

Lemma insert_all_other l : ∀ p j,
  j ∉ map fst l → insert_all l p !! j = p !! j.
Proof.
  induction l as [|[i v] l IH]; intros p j Hj; [done|].
  simpl in Hj. apply not_elem_of_cons in Hj as [Hne Hj].
  unfold insert_all. simpl. fold (insert_all l (<[i:=v]> p)).
  rewrite IH by done. by rewrite lookup_insert_ne.
Qed.

Lemma map_fst_zip_subset {A B} (l : list A) (k : list B) j :
  j ∈ map fst (zip l k) → j ∈ l.
Proof.
  revert k. induction l as [|x l IH]; intros [|y k] Hj; simpl in Hj;
    try by apply elem_of_nil in Hj.
  apply elem_of_cons in Hj as [->|Hj]; [apply list_elem_of_here|].
  apply list_elem_of_further. by eapply IH.
Qed.

Lemma flat_list_labelled t : ∀ i ids p,
  length ids = length (subtrees_NP i t) →
  (∀ j, i ≤ j → p !! j = None) →
  flat_list_from (insert_all (zip (map fst (subtrees_NP i t)) ids) p) i t
  = labelled t ids.
Proof.
  induction t as [|[x|ls] t IH]; intros i ids p Hlen Hp; simpl; [done| |].
  - rewrite IH; [|done|intros j Hj; apply Hp; lia].
    unfold label_at. rewrite insert_all_other, Hp; [done|lia|].
    intros Hin%map_fst_zip_subset%subtrees_NP_index. lia.
  - destruct ids as [|np_id ids]; [done|]. simpl in Hlen.
    simpl zip. unfold insert_all. simpl foldl.
    fold (insert_all (zip (map fst (subtrees_NP (S i) t)) ids) (<[i:=np_id]> p)).
    rewrite IH; [|lia|intros j Hj; rewrite lookup_insert_ne by lia; apply Hp; lia].
    unfold label_at. rewrite insert_all_other, lookup_insert_eq; [done|].
    intros Hin%map_fst_zip_subset%subtrees_NP_index. lia.
Qed.

Lemma labelled_untag t : ∀ i ids,
  length ids = length (subtrees_NP i t) →
  map untag (labelled t ids) = leaves t.
Proof.
  induction t as [|[[w tg]|ls] t IH]; intros i ids Hlen; simpl; [done| |].
  - unfold leaves in *. simpl. f_equal. by apply (IH (S i)).
  - destruct ids as [|np_id ids]; [done|]. simpl in Hlen.
    unfold leaves in *. simpl. rewrite map_app, (IH (S i)) by lia.
    f_equal. rewrite map_map. unfold untag. simpl.
    clear. induction ls as [|[w tg] ls IHl]; simpl; [done|]. by rewrite IHl.
Qed.

Lemma labelled_labels t : ∀ ids,
  Forall (λ d : word_datum,
            d.2 = NoNP ∨ ∃ np_id, d.2 = NPid np_id ∧ np_id ∈ ids)
         (labelled t ids).
Proof.
  induction t as [|[x|ls] t IH]; intros ids; simpl; [done| |].
  - constructor; [by left|done].
  - destruct ids as [|np_id ids]; [done|]. apply Forall_app. split.
    + apply Forall_forall. intros d Hd.
      apply list_elem_of_In, in_map_iff in Hd as (leaf & <- & _).
      right. exists np_id. split; [done|]. apply list_elem_of_here.
    + eapply Forall_impl; [apply IH|]. intros d [?|(v & ? & ?)]; [by left|].
      right. exists v. split; [done|]. by apply list_elem_of_further.
Qed.

Lemma first_seen_nil ends_with : first_seen ends_with [].
Proof. intros [|??] ? ? ?; done. Qed.

Lemma first_seen_NoDup ends_with keys :
  first_seen ends_with keys → NoDup keys.
Proof.
  induction keys as [|x keys IH] using rev_ind; intros H; [constructor|].
  apply NoDup_app. split; [by eapply IH, first_seen_prefix|].
  split; [|apply NoDup_singleton].
  intros y Hy ->%list_elem_of_singleton.
  specialize (H keys x [] eq_refl).
  by apply (proj1 (Forall_forall _ _) H) in Hy as [? _].
Qed.

(** [label_nounphrases] never raises; its triples are the tree's, with
    the identifiers the first loop gave. *)
Lemma label_nounphrases_result parse ends_with pos :
  ∃ ids mapping_dict,
    label_nounphrases parse ends_with pos
    = Some (labelled (parse pos) ids, mapping_dict)
    ∧ length ids = length (subtrees_NP 0 (parse pos))
    ∧ ids_in_order mapping_dict
    ∧ first_seen ends_with (map fst mapping_dict)
    ∧ map fst mapping_dict
      `sublist_of` map (λ st, np_string st.2) (subtrees_NP 0 (parse pos))
    ∧ Forall2 (λ st np_id,
                 np_id ∈ map snd mapping_dict
                 ∧ resolve ends_with mapping_dict (np_string st.2)
                   = Some (np_id, mapping_dict))
              (subtrees_NP 0 (parse pos)) ids.
Proof.
  destruct (np_loop_spec ends_with (subtrees_NP 0 (parse pos)) [] ∅
              ids_in_order_nil (first_seen_nil _))
    as (ids & ext & Hloop & Hlen & Hm & Hfs & Hsub & Hall).
  simpl in *. exists ids, ext. unfold label_nounphrases.
  rewrite Hloop. simpl. rewrite flat_list_labelled; [done|done|].
  intros j _. apply lookup_empty.
Qed.

(** *** The chunk parser keeps the tokens *)

Lemma chunk_run_leaves r : ∀ fuel run, leaves (chunk_run fuel r run) = run.
Proof.
  induction fuel as [|fuel IH]; intros run; simpl.
  - unfold leaves. induction run as [|x run IHr]; simpl; [done|].
    by rewrite IHr.
  - destruct run as [|x run]; [done|].
    destruct (match_here r (x :: run)) as [rest|] eqn:Hm.
    + destruct (match_here_sound _ _ _ Hm) as (u & Hu & _).
      destruct (length (x :: run) - length rest =? 0) eqn:E.
      * unfold leaves in *. simpl. by rewrite IH.
      * unfold leaves in *. simpl. rewrite IH.
        change (S (length run)) with (length (x :: run)).
        rewrite Hu, length_app.
        replace (length u + length rest - length rest) with (length u) by lia.
        by rewrite take_app_length.
    + unfold leaves in *. simpl. by rewrite IH.
Qed.

Lemma leaves_app t1 t2 : leaves (t1 ++ t2) = leaves t1 ++ leaves t2.
Proof. unfold leaves. by rewrite map_app, concat_app. Qed.

Lemma apply_rule_leaves r : ∀ tree run,
  leaves (apply_rule r tree run) = run ++ leaves tree.
Proof.
  induction tree as [|[x|ls] tree IH]; intros run; simpl.
  - by rewrite chunk_run_leaves, app_nil_r.
  - rewrite IH. by rewrite <- (assoc_L (++)).
  - rewrite leaves_app, chunk_run_leaves.
    change (NP ls :: ?l) with ([NP ls] ++ l).
    by rewrite !leaves_app, IH.
Qed.

Lemma parse_leaves grammar pos : leaves (Nltk.parse grammar pos) = pos.
Proof.
  unfold Nltk.parse.
  assert (leaves (map Leaf pos) = pos) as H.
  { unfold leaves. induction pos as [|x pos IH]; simpl; [done|]. by rewrite IH. }
  revert H. generalize (map Leaf pos).
  induction grammar as [|r grammar IH]; intros tree H; simpl; [done|].
  apply IH. by rewrite apply_rule_leaves.
Qed.

(** C8. For every parser whose tree has the input tokens as its leaves,
    and so for the chunk grammar of the source on every tagged token
    sequence: the flat list holds every input token once and in the input
    order, each with its tag; a token inside a chunk carries the
    identifier of that chunk and a token outside every chunk the empty
    marker; and the identifier of a chunk is one of the mapping, the one
    that resolving the chunk's canonical string against the final mapping
    gives. *)
Theorem label_nounphrases_tokens :
  (∀ (parse : list tagged → list node)
     (ends_with : string → string → bool) (pos : list tagged),
      leaves (parse pos) = pos → tokens_labelled parse ends_with pos)
  ∧ (∀ (ends_with : string → string → bool) (pos : list tagged),
      tokens_labelled cp_parse ends_with pos).
Proof.
  assert (∀ parse ends_with pos,
            leaves (parse pos) = pos → tokens_labelled parse ends_with pos)
    as Hgen.
  { intros parse ends_with pos Hleaves.
    destruct (label_nounphrases_result parse ends_with pos)
      as (ids & m & Hl & Hlen & _ & _ & _ & Hall).
    exists (labelled (parse pos) ids), m, ids.
    split; [done|]. split; [|done].
    by rewrite (labelled_untag _ 0), Hleaves. }
  split; [exact Hgen|].
  intros ends_with pos. apply Hgen. apply parse_leaves.
Qed.

Lemma label_nounphrases_tokens_witness :
  let pos := [("the", "DT"); ("control", "NN"); ("device", "NN");
              ("drives", "VBZ"); ("the", "DT"); ("device", "NN")]%string in
  leaves (cp_parse pos) = pos
  ∧ ∃ flat_list mapping_dict,
      label_nounphrases cp_parse ends_with pos = Some (flat_list, mapping_dict)
      ∧ map untag flat_list = pos.
Proof.
  cbv zeta. split; [vm_compute; reflexivity|].
  destruct (proj1 label_nounphrases_tokens cp_parse ends_with
              [("the", "DT"); ("control", "NN"); ("device", "NN");
               ("drives", "VBZ"); ("the", "DT"); ("device", "NN")]%string)
    as (flat_list & mapping_dict & ids & H1 & H2 & _).
  - vm_compute. reflexivity.
  - exists flat_list, mapping_dict. split; [exact H1|exact H2].
Defined.

(** C9. [label_nounphrases] returns a mapping whose identifiers, in
    insertion order, are 1, 2, ..., its size: they are pairwise distinct
    and are exactly the numbers from 1 to the size.  Its keys are
    pairwise distinct canonical strings of chunks, in the order of their
    first chunk, each new when it went in.  And a string that is not a
    key but is matched by [ends_with] against a key gets the identifier
    of the first such key while the mapping stays as it is. *)
Theorem label_nounphrases_mapping :
  (∀ (parse : list tagged → list node)
     (ends_with : string → string → bool) (pos : list tagged),
      ∃ flat_list mapping_dict,
        label_nounphrases parse ends_with pos = Some (flat_list, mapping_dict)
        ∧ map snd mapping_dict = seq 1 (length mapping_dict)
        ∧ NoDup (map snd mapping_dict)
        ∧ (∀ v, v ∈ map snd mapping_dict ↔ 1 ≤ v ≤ length mapping_dict)
        ∧ NoDup (map fst mapping_dict)
        ∧ map fst mapping_dict
          `sublist_of` map (λ st, np_string st.2)
                           (subtrees_NP 0 (parse pos))
        ∧ first_seen ends_with (map fst mapping_dict))
  ∧ (∀ (ends_with : string → string → bool) (m : dict nat) (s : string)
       (k1 : list string) (k : string) (k2 : list string),
      dict_get m s = None →
      map fst m = k1 ++ k :: k2 →
      Forall (λ k', ends_with s k' = false) k1 → ends_with s k = true →
      ∃ np_id, dict_get m k = Some np_id
               ∧ resolve ends_with m s = Some (np_id, m)).
Proof.
  split.
  - intros parse ends_with pos.
    destruct (label_nounphrases_result parse ends_with pos)
      as (ids & m & Hl & _ & Hm & Hfs & Hsub & _).
    exists (labelled (parse pos) ids), m.
    split; [done|]. split; [done|]. split; [rewrite Hm; apply NoDup_seq|].
    split; [|split; [by eapply first_seen_NoDup|done]].
    intros v. rewrite Hm, elem_of_seq. lia.
  - intros ends_with m s k1 k k2. apply resolve_suffix.
Qed.

Lemma label_nounphrases_mapping_witness :
  (∃ flat_list mapping_dict,
      label_nounphrases cp_parse ends_with
        [("the", "DT"); ("control", "NN"); ("device", "NN");
         ("drives", "VBZ"); ("the", "DT"); ("device", "NN")]%string
      = Some (flat_list, mapping_dict)
      ∧ map snd mapping_dict = seq 1 (length mapping_dict))
  ∧ ∃ np_id,
      dict_get [("control device", 1)]%string "control device" = Some np_id
      ∧ resolve ends_with [("control device", 1)]%string "device"
        = Some (np_id, [("control device", 1)]%string).
Proof.
  split.
  - destruct (proj1 label_nounphrases_mapping cp_parse ends_with
                [("the", "DT"); ("control", "NN"); ("device", "NN");
                 ("drives", "VBZ"); ("the", "DT"); ("device", "NN")]%string)
      as (flat_list & mapping_dict & H1 & H2 & _).
    exists flat_list, mapping_dict. split; [exact H1|exact H2].
  - apply (proj2 label_nounphrases_mapping ends_with
             [("control device", 1)]%string "device" [] "control device" []).
    + reflexivity.
    + reflexivity.
    + constructor.
    + vm_compute. reflexivity.
Defined.

(** *** Identity resolution with the suffix test of the spec *)

Lemma ends_with_word_suffix s k : ends_with s k = true ↔ word_suffix s k.
Proof.
  unfold ends_with, word_suffix. rewrite orb_true_iff, String.eqb_eq.
  rewrite bool_decide_eq_true. done.
Qed.

Lemma not_word_suffix s keys :
  Forall (λ k, ¬ word_suffix s k) keys →
  Forall (λ k, ends_with s k = false) keys.
Proof.
  intros H. eapply Forall_impl; [exact H|].
  intros k Hk. apply not_true_is_false. by rewrite ends_with_word_suffix.
Qed.

(** C4. Against a mapping whose identifiers are 1, 2, ... in insertion
    order: a canonical string that is a key gets that key's identifier;
    otherwise, if it is a word-boundary suffix of some key, it gets the
    identifier of the first such key; otherwise it gets the size of the
    mapping plus 1 and goes in as the last key.  In each of the first two
    cases the mapping stays as it is.  The first string of a claim gets
    1.  In "the control device drives the device" the two mentions get
    the same identifier. *)
Theorem resolve_spec (m : dict nat) (s : string) :
  ids_in_order m →
  (∀ np_id, dict_get m s = Some np_id →
     resolve ends_with m s = Some (np_id, m))
  ∧ (dict_get m s = None →
     ∀ k1 k k2, map fst m = k1 ++ k :: k2 →
       Forall (λ k', ¬ word_suffix s k') k1 → word_suffix s k →
       ∃ np_id, dict_get m k = Some np_id
                ∧ resolve ends_with m s = Some (np_id, m))
  ∧ (dict_get m s = None →
     Forall (λ k, ¬ word_suffix s k) (map fst m) →
     resolve ends_with m s = Some (length m + 1, m ++ [(s, length m + 1)]))
  ∧ resolve ends_with [] s = Some (1, [(s, 1)])
  ∧ label_nounphrases cp_parse ends_with
      [("the", "DT"); ("control", "NN"); ("device", "NN");
       ("drives", "VBZ"); ("the", "DT"); ("device", "NN")]%string
    = Some ([("the", "DT", NPid 1); ("control", "NN", NPid 1);
             ("device", "NN", NPid 1); ("drives", "VBZ", NoNP);
             ("the", "DT", NPid 1); ("device", "NN", NPid 1)]%string,
            [("control device", 1)]%string).
Proof.
  intros Hm. split; [|split; [|split; [|split]]].
  - intros np_id. by apply resolve_exact.
  - intros Hg k1 k k2 Hk H1 H2.
    apply (resolve_suffix ends_with m s k1 k k2 Hg Hk).
    + by apply not_word_suffix.
    + by apply ends_with_word_suffix.
  - intros Hg Hall. apply resolve_fresh; [done|]. by apply not_word_suffix.
  - reflexivity.
  - vm_compute. reflexivity.
Qed.

Lemma resolve_spec_witness :
  ids_in_order [("control device", 1)]%string
  ∧ ∃ np_id,
      dict_get [("control device", 1)]%string "control device" = Some np_id
      ∧ resolve ends_with [("control device", 1)]%string "device"
        = Some (np_id, [("control device", 1)]%string).
Proof.
  assert (ids_in_order [("control device", 1)]%string) as Hm by reflexivity.
  split; [exact Hm|].
  apply (proj1 (proj2 (resolve_spec [("control device", 1)]%string "device" Hm))
           eq_refl [] "control device"%string []).
  - reflexivity.
  - constructor.
  - right. exists (chars "control"). reflexivity.
Defined.

(** *** The join condition *)

(** The tag the join condition compares with is "DT" alone. *)
Lemma skipped_tag_DT : skipped_tag = "DT"%string.
Proof. reflexivity. Qed.

(** C1 fails on the code: the canonical string joins the words of every
    leaf whose tag is not "DT", so a possessive pronoun stays in it.  The
    chunk of "its sensor" gets the canonical string "its sensor", where
    the claim has "sensor"; a determiner is dropped, as the claim has
    it. *)
Theorem np_string_keeps_possessive :
  (∀ st_leaves : list tagged,
      np_string st_leaves
      = String.concat " "
          (map fst (filter (λ leaf : tagged, leaf.2 ≠ "DT"%string) st_leaves)))
  ∧ cp_parse [("its", "PRP$"); ("sensor", "NN")]%string
  = [NP [("its", "PRP$"); ("sensor", "NN")]%string]
  ∧ np_string [("its", "PRP$"); ("sensor", "NN")]%string
    = "its sensor"%string
  ∧ np_string [("the", "DT"); ("sensor", "NN")]%string = "sensor"%string
  ∧ label_nounphrases cp_parse ends_with
      [("its", "PRP$"); ("sensor", "NN")]%string
    = Some ([("its", "PRP$", NPid 1); ("sensor", "NN", NPid 1)]%string,
            [("its sensor", 1)]%string).
Proof.
  split; [reflexivity|]. repeat split; vm_compute; reflexivity.
Qed.

End NounPhraseFacts.

(* ================================================================== *)
(** ** The constructor and the tagging *)
(* ================================================================== *)

Module InitFacts.
Import Re Py Nltk Spec Claim NumberFacts DependencyFacts NounPhraseFacts.

(** [BaseTextBlock.set_pos] tags every token "comprising" as VBG,
    whatever the tagger says. *)
Lemma set_pos_comprising (pos_tag : list string → list tagged) words tag :
  ("comprising"%string, tag) ∈ BaseTextBlock.set_pos pos_tag words →
  tag = "VBG"%string.
Proof.
  unfold BaseTextBlock.set_pos. intros H.
  apply list_elem_of_In, in_map_iff in H as ([w t'] & Heq & _).
  destruct (decide (w ≠ "comprising"%string)) as [Hne|_].
  - injection Heq as -> ->. done.
  - by injection Heq as <-.
Qed.

(** [Claim.get_pos] is the tagger's list as it is. *)
Lemma get_pos_is_pos_tag (pos_tag : list string → list tagged) words :
  get_pos pos_tag words = pos_tag words.
Proof. reflexivity. Qed.

(** What the constructor stores and prints, when it returns. *)
Lemma init_fields parse ends_with word_tokenize pos_tag
    text0 number0 dependency0 c :
  init parse ends_with word_tokenize pos_tag text0 number0 dependency0
  = Some c →
  ∃ parsed_number parsed_dependency,
    get_number text0 = Some (parsed_number, text c)
    ∧ detect_dependency (text c) = Some parsed_dependency
    ∧ number c = (if truthy number0 then number0 else parsed_number)
    ∧ dependency c
      = (if truthy dependency0 then default 0%Z dependency0
         else parsed_dependency)
    ∧ stdout c
      = (if truthy number0 && bool_decide (number0 ≠ parsed_number)
         then [number_warning] else [])
        ++ (if truthy dependency0
               && bool_decide (dependency0 ≠ Some parsed_dependency)
            then [dependency_warning] else [])
    ∧ pos c = pos_tag (word_tokenize (text c)).
Proof.
  unfold init. intros H.
  destruct (get_number text0) as [[parsed_number text1]|]; [|done].
  simpl in H. exists parsed_number.
  destruct (truthy number0) eqn:Hn;
    [destruct (decide (number0 ≠ parsed_number)) as [Hne|Heq]|];
    (destruct (detect_dependency text1) as [parsed_dependency|] eqn:Hd;
       [|done]);
    simpl in H; exists parsed_dependency;
    (destruct dependency0 as [d|];
       [destruct (truthy (Some d)) eqn:Hz;
          [destruct (decide (d ≠ parsed_dependency)) as [Hned|Heqd]|]|]);
    (destruct (label_nounphrases _ _ _) as [[wd md]|]; [|done]);
    simpl in H; injection H as <-; simpl;
    rewrite ?Hz, ?Hd; simpl;
    try apply dec_stable in Heq; try apply dec_stable in Heqd; subst;
    rewrite ?bool_decide_eq_true_2, ?bool_decide_eq_false_2,
            ?bool_decide_eq_true_2
      by first [congruence | by intros HH; apply HH];
    done.
Qed.

(** The constructor never raises. *)
Lemma init_total parse ends_with word_tokenize pos_tag
    text0 number0 dependency0 :
  is_Some (init parse ends_with word_tokenize pos_tag
             text0 number0 dependency0).
Proof.
  unfold init.
  destruct (get_number_total text0) as [[parsed_number text1] ->]. simpl.
  destruct (truthy number0); [destruct (decide _)|];
    (destruct (detect_dependency_total text1) as [pd ->]; simpl;
     (destruct dependency0 as [d|];
        [destruct (truthy (Some d)); [destruct (decide _)|]|]);
     (destruct (label_nounphrases_result parse ends_with
                  (get_pos pos_tag (get_words word_tokenize text1)))
        as (ids & m & -> & _));
     done).
Qed.

(** C7 fails on the code for a supplied 0: a dependency 0 passed to the
    constructor of a claim whose text says "of claim 1" is dropped; the
    parsed 1 is stored and nothing is printed.  This holds for every
    tokenizer, tagger and parser. *)
Theorem init_drops_dependency_zero
    (parse : list tagged → list node) (ends_with : string → string → bool)
    (word_tokenize : str → list string)
    (pos_tag : list string → list tagged) :
  ∃ c,
    init parse ends_with word_tokenize pos_tag
      (chars "2. The system of claim 1, wherein the device comprises a sensor.")
      None (Some 0%Z)
    = Some c
    ∧ number c = Some 2%Z ∧ dependency c = 1%Z ∧ stdout c = [].
Proof.
  unfold init.
  assert (get_number
            (chars "2. The system of claim 1, wherein the device comprises a sensor.")
          = Some (Some 2%Z,
                  chars "The system of claim 1, wherein the device comprises a sensor."))
    as -> by (vm_compute; reflexivity).
  cbn -[chars detect_dependency label_nounphrases get_pos get_words
        split_into_features].
  assert (detect_dependency
            (chars "The system of claim 1, wherein the device comprises a sensor.")
          = Some 1%Z) as -> by (vm_compute; reflexivity).
  cbn -[chars label_nounphrases get_pos get_words split_into_features].
  destruct (label_nounphrases_result parse ends_with
              (get_pos pos_tag (get_words word_tokenize
                 (chars "The system of claim 1, wherein the device comprises a sensor."))))
    as (ids & m & -> & _).
  simpl. eexists. split; [reflexivity|]. done.
Qed.

(** C2 fails on the code: [Claim.get_pos] records the tag the tagger
    gives.  With a tagger that calls "comprising" a noun, the claim's
    part-of-speech list holds ("comprising", "NN") and not
    ("comprising", "VBG"); [BaseTextBlock.set_pos] on the same words
    gives ("comprising", "VBG"). *)
Theorem get_pos_keeps_tagger_tag
    (parse : list tagged → list node) (ends_with : string → string → bool) :
  ∃ c,
    init parse ends_with example_tokens tag_all_NN
      (chars "A device comprising a sensor.") None None
    = Some c
    ∧ (("comprising", "NN")%string ∈ pos c)
    ∧ (("comprising", "VBG")%string ∉ pos c)
    ∧ (("comprising", "VBG")%string
       ∈ BaseTextBlock.set_pos tag_all_NN (words c)).
Proof.
  destruct (init parse ends_with example_tokens tag_all_NN
              (chars "A device comprising a sensor.") None None)
    as [c|] eqn:Hc.
  - exists c. split; [done|].
    destruct (init_fields _ _ _ _ _ _ _ _ Hc) as (pn & pd & _ & _ & _ & _ & _ & Hpos).
    assert (words c = example_tokens (text c)) as Hw.
    { revert Hc. unfold init.
      destruct (get_number _) as [[??]|]; [|done]. simpl.
      destruct (detect_dependency _); [|done]. simpl.
      destruct (label_nounphrases _ _ _) as [[??]|]; [|done]. simpl.
      by intros [= <-]. }
    rewrite Hpos, Hw. unfold example_tokens, tag_all_NN. simpl.
    split; [|split].
    + do 2 apply list_elem_of_further. apply list_elem_of_here.
    + intros H. repeat (apply elem_of_cons in H as [H|H]; [done|]).
      by apply elem_of_nil in H.
    + do 2 apply list_elem_of_further. apply list_elem_of_here.
  - exfalso. revert Hc. unfold init.
    assert (get_number (chars "A device comprising a sensor.")
            = Some (None, chars "A device comprising a sensor."))
      as -> by (vm_compute; reflexivity).
    cbn -[chars detect_dependency label_nounphrases get_pos get_words
          split_into_features].
    assert (detect_dependency (chars "A device comprising a sensor.")
            = Some 0%Z) as -> by (vm_compute; reflexivity).
    cbn -[chars label_nounphrases get_pos get_words split_into_features].
    destruct (label_nounphrases_result parse ends_with
                (get_pos tag_all_NN (get_words example_tokens
                   (chars "A device comprising a sensor."))))
      as (ids & m & -> & _).
    done.
Qed.

End InitFacts.


(* ================================================================== *)
(** ** More on [get_number], [detect_dependency] and
       [split_into_features] *)
(* ================================================================== *)

Module ExtractionFacts.
Import Re Py Spec SpecX ReFacts NumberFacts FeatureFacts DependencyFacts Claim.

Lemma int_nonneg s n : int s = Some n → (0 ≤ n)%Z.
Proof.
  unfold int. destruct s as [|c s]; [done|].
  destruct (forallb is_digit (c :: s)); [|done]. intros [= <-].
  assert (∀ l acc, (0 ≤ acc)%Z →
            (0 ≤ fold_left (λ a d, 10 * a + digit_val d) l acc)%Z) as H.
  { induction l as [|d l IH]; intros acc Hacc; simpl; [done|].
    apply IH. unfold digit_val. lia. }
  apply H. unfold digit_val. lia.
Qed.

Lemma number_re_first nd ds rest : ∀ i,
  forallb (λ c, negb (is_digit c)) nd = true →
  ds ≠ [] → forallb is_digit ds = true →
  search_from number_re i (nd ++ ds ++ "."%char :: rest)
  = Some (i + length nd, i + length nd + length (ds ++ ["."%char])).
Proof.
  induction nd as [|c nd IH]; intros i Hnd Hne Hds.
  - simpl app.
    rewrite (search_from_here _ _ _ _ (number_re_here ds rest Hne Hds)).
    rewrite !length_app. simpl. f_equal. f_equal; lia.
  - simpl in Hnd. apply andb_prop in Hnd as [Hc Hnd].
    apply negb_true_iff in Hc.
    simpl. unfold match_here at 1, number_re at 1, Plus. simpl. rewrite Hc.
    rewrite (IH (S i)) by done. f_equal. f_equal; lia.
Qed.

(** X1. The number is read at the leftmost digits followed by a full
    stop: when no digit stands before them, the number is their value,
    which is not negative, and the cleaned text is what follows the full
    stop, stripped; what stands before the digits is dropped, and later
    numbers are left in the text. *)
Theorem get_number_leftmost (nd ds rest : str) :
  forallb (λ c, negb (is_digit c)) nd = true →
  ds ≠ [] → forallb is_digit ds = true →
  ∃ n, int ds = Some n ∧ (0 ≤ n)%Z
       ∧ get_number (nd ++ ds ++ "."%char :: rest)
         = Some (Some n, strip rest).
Proof.
  intros Hnd Hne Hds.
  pose proof (int_digits ds Hne Hds) as Hint.
  eexists. split; [exact Hint|]. split; [by eapply int_nonneg|].
  unfold get_number, search.
  rewrite (number_re_first nd ds rest 0 Hnd Hne Hds).
  change (0 + length nd) with (length nd).
  change (nd ++ ds ++ "."%char :: rest)
    with (nd ++ ds ++ ["."%char] ++ rest).
  rewrite (assoc_L (++) ds), slice_middle.
  unfold drop_last. rewrite length_app. simpl length.
  replace (length ds + 1 - 1) with (length ds) by lia.
  rewrite take_app_length, Hint. simpl.
  rewrite (assoc_L (++) nd).
  replace (length nd + (length ds + 1))
    with (length (nd ++ ds ++ ["."%char]))
    by (rewrite !length_app; simpl; lia).
  by rewrite drop_app_length.
Qed.

Lemma get_number_leftmost_witness :
  get_number (chars "Claim " ++ chars "12" ++ "."%char :: chars " A device of item 3. ")
  = Some (Some 12%Z, chars "A device of item 3.").
Proof.
  destruct (get_number_leftmost (chars "Claim ") (chars "12")
              (chars " A device of item 3. "))
    as (n & Hn & _ & Hg); [reflexivity|done|reflexivity|].
  injection Hn as <-. exact Hg.
Defined.

Lemma lstrip_split s :
  ∃ sp, s = sp ++ lstrip s ∧ forallb is_space sp = true.
Proof.
  induction s as [|c s (sp & Hs & Hsp)]; [by exists []|]. simpl.
  destruct (is_space c) eqn:Hc.
  - exists (c :: sp). simpl. rewrite Hc, Hsp. by rewrite <- Hs.
  - by exists [].
Qed.

Lemma lstrip_head s c : head (lstrip s) = Some c → is_space c = false.
Proof.
  induction s as [|d s IH]; simpl; [done|].
  destruct (is_space d) eqn:Hd; [done|]. by intros [= <-].
Qed.

Lemma last_rev {A} (l : list A) : last (rev l) = head l.
Proof.
  destruct l as [|x l]; [done|]. simpl. by rewrite last_snoc.
Qed.

Lemma head_rev {A} (l : list A) : head (rev l) = last l.
Proof. by rewrite <- (rev_involutive l) at 2; rewrite last_rev. Qed.

Lemma strip_ends s :
  (∀ c, head (strip s) = Some c → is_space c = false)
  ∧ (∀ c, last (strip s) = Some c → is_space c = false).
Proof.
  unfold strip, rstrip. split; intros c Hc.
  - rewrite head_rev in Hc.
    destruct (lstrip_split (rev (lstrip s))) as (sp & Hs & _).
    destruct (lstrip (rev (lstrip s))) as [|x l] eqn:El; [done|].
    assert (last (rev (lstrip s)) = Some c) as Hl.
    { rewrite Hs. rewrite last_app, Hc. done. }
    rewrite last_rev in Hl. by apply lstrip_head in Hl.
  - rewrite last_rev in Hc. by apply lstrip_head in Hc.
Qed.

(** X2. When a number is found, the cleaned text neither starts nor ends
    with white space. *)
Theorem get_number_stripped (text : str) (n : Z) (cleaned : str) :
  get_number text = Some (Some n, cleaned) →
  (∀ c, head cleaned = Some c → is_space c = false)
  ∧ (∀ c, last cleaned = Some c → is_space c = false).
Proof.
  unfold get_number.
  destruct (search number_re text) as [[st en]|]; [|done].
  destruct (int _); [|done]. simpl. intros [= _ <-]. apply strip_ends.
Qed.

Lemma get_number_stripped_witness :
  (∀ c, head (chars "A device.") = Some c → is_space c = false)
  ∧ (∀ c, last (chars "A device.") = Some c → is_space c = false).
Proof.
  apply (get_number_stripped (chars "7.   A device.  ") 7%Z).
  vm_compute. reflexivity.
Defined.

(** X3. [detect_dependency] never raises, and the dependency is never
    negative. *)
Theorem detect_dependency_nonneg (text : str) :
  ∃ d, detect_dependency text = Some d ∧ (0 ≤ d)%Z.
Proof.
  destruct (detect_dependency_total text) as [d Hd]. exists d.
  split; [done|]. revert Hd. unfold detect_dependency.
  destruct (search dependency_re text) as [[st en]|].
  - cbv zeta. destruct (search num_re _) as [[a b]|]; [|done]. simpl.
    apply int_nonneg.
  - destruct (search preceding_re text); by intros [= <-].
Qed.

(** *** Features and delimiters *)

Lemma split_expression_first u rest :
  matches split_expression u rest →
  ∃ c u', u = c :: u' ∧ is_delimiter c = true.
Proof.
  unfold split_expression. intros M.
  repeat match goal with
  | H : matches (Alt _ _) _ _ |- _ => inversion H; subst; clear H
  end;
  match goal with
  | H : matches (Cat (chr _) _) _ _ |- _ =>
      inversion H as [| |? ? u1 u2 ? H1 H2| | | |]; subst;
      inversion H1 as [|? ? ? Hc| | | | |]; subst;
      apply is_char_eq in Hc; subst; eexists _, _; split; [done|done]
  end.
Qed.

Lemma finditer_nil {A} (r : regex A) s :
  finditer r s = [] ↔ search r s = None.
Proof.
  unfold finditer, search. simpl.
  destruct (search_from r 0 s) as [[st en]|]; by split.
Qed.

(** X4. No feature comes out exactly when the delimiter pattern matches
    nowhere; so a text with none of the characters [;], [,], [:], [.]
    has no feature. *)
Theorem split_into_features_none (text : str) :
  (split_into_features text = [] ↔ search split_expression text = None)
  ∧ (forallb (λ c, negb (is_delimiter c)) text = true →
     split_into_features text = []).
Proof.
  assert (split_into_features text = []
          ↔ search split_expression text = None) as Hiff.
  { rewrite split_into_features_cut, <- finditer_nil.
    destruct (finditer split_expression text) as [|[st en] l]; by split. }
  split; [done|]. intros Hno. apply Hiff, search_from_None. intros n Hn.
  destruct (match_here split_expression (drop n text)) as [rest|] eqn:Hm;
    [|done].
  apply match_here_sound in Hm as (u & Hu & M).
  apply split_expression_first in M as (c & u' & -> & Hc).
  assert (c ∈ text) as Hin.
  { rewrite <- (take_drop n text), Hu. apply elem_of_app. right.
    apply list_elem_of_here. }
  apply list_elem_of_In in Hin.
  rewrite forallb_forall in Hno. apply Hno in Hin. by rewrite Hc in Hin.
Qed.

Lemma split_into_features_none_witness :
  split_into_features (chars "A device having a sensor and a lens") = [].
Proof.
  apply (proj2 (split_into_features_none _)). vm_compute. reflexivity.
Defined.

Section Leftmost.
Context {A : Type} (r : regex A).
Hypothesis r_consumes : ∀ s rest,
  match_here r s = Some rest → length rest < length s.

Lemma finditer_from_leftmost (text : list A) : ∀ fuel i,
  i ≤ length text →
  leftmost_from r text i (finditer_from fuel r i (drop i text)).
Proof.
  induction fuel as [|fuel IH]; intros i Hi; simpl; [done|].
  destruct (search_from r i (drop i text)) as [[st en]|] eqn:Hs; [|done].
  pose proof (search_from_consumes r r_consumes _ _ _ _ Hs) as Hlt.
  destruct (search_from_Some _ _ _ _ _ Hs) as (H1 & H2 & H3 & Hno & Hm).
  rewrite length_drop in H3.
  assert ((en =? st) = false) as -> by (apply Nat.eqb_neq; lia).
  assert ((i + length (drop i text) <? en) = false) as ->
    by (apply Nat.ltb_ge; rewrite length_drop; lia).
  rewrite !drop_drop in Hm.
  replace (i + (st - i)) with st in Hm by lia.
  replace (i + (en - i)) with en in Hm by lia.
  apply match_here_sound in Hm as (u & Hu & M).
  assert (length u = en - st) as Hlen.
  { apply (f_equal length) in Hu. rewrite length_app, !length_drop in Hu. lia. }
  simpl. repeat split; try lia; [done| |].
  - by rewrite Hu, <- Hlen, take_app_length.
  - rewrite drop_drop. replace (i + (en - i)) with en by lia.
    apply IH. lia.
Qed.
End Leftmost.

Lemma cut_leftmost text : ∀ ms lo,
  leftmost_from split_expression text lo ms →
  Forall (ends_with_delimiter text) (cut text lo (map snd ms)).
Proof.
  induction ms as [|[st en] ms IH]; intros lo H; simpl; [done|].
  destruct H as (H1 & H2 & H3 & Hno & M & H). constructor; [|by apply IH].
  exists st. simpl. done.
Qed.

(** X5. Every feature is a stretch of text in which no delimiter match
    starts, followed by exactly the delimiter match that ends it: a
    feature never runs past a delimiter and never stops short of one. *)
Theorem split_into_features_delimited (text : str) :
  Forall (ends_with_delimiter text) (split_into_features text).
Proof.
  rewrite split_into_features_cut. apply cut_leftmost.
  apply (finditer_from_leftmost _ split_expression_consumes text
           (S (length text)) 0).
  lia.
Qed.

End ExtractionFacts.


(* ================================================================== *)
(** ** [detect_category] *)
(* ================================================================== *)

Module CategoryFacts.
Import Re Py Spec SpecX ReFacts Category.

Lemma star_run_complete {A R} (p : A → bool) u rest (k : list A → option R) :
  forallb p u = true → is_Some (k rest) → is_Some (star_run p (u ++ rest) k).
Proof.
  intros Hu Hk. induction u as [|c u IH]; simpl.
  - destruct rest as [|c rest]; simpl; [done|].
    destruct (p c); [|done]. by destruct (star_run p rest k).
  - simpl in Hu. apply andb_prop in Hu as [-> Hu].
    destruct (IH Hu) as [x ->]. done.
Qed.

(** The matcher finds a match wherever the pattern has one. *)
Lemma run_complete {A R} (r : regex A) u rest :
  matches r u rest →
  ∀ k : list A → option R, is_Some (k rest) → is_Some (run r (u ++ rest) k).
Proof.
  induction 1 as [rest|p c rest Hc|r1 r2 u1 u2 rest M1 IH1 M2 IH2
                  |r1 r2 u rest M IH|r1 r2 u rest M IH|p u rest Hu
                  |p rest Hp]; intros k Hk; simpl.
  - done.
  - by rewrite Hc.
  - rewrite <- (assoc_L (++)). apply IH1. by apply IH2.
  - destruct (IH k Hk) as [x ->]. done.
  - destruct (run r1 (u ++ rest) k); [done|]. by apply IH.
  - by apply star_run_complete.
  - by rewrite Hp.
Qed.

Lemma rep_run_sound {A R} (r : regex A) : ∀ fuel s (k : list A → option R) x,
  rep_run fuel r s k = Some x →
  ∃ u rest, s = u ++ rest ∧ k rest = Some x.
Proof.
  induction fuel as [|fuel IH]; intros s k x H; simpl in H.
  - by exists [], s.
  - destruct (run r s _) as [y|] eqn:Hr.
    + injection H as ->.
      apply run_sound in Hr as (u & s' & -> & _ & Hk).
      destruct (length s' <? length (u ++ s')); [|done].
      apply IH in Hk as (u' & rest & -> & Hk).
      exists (u ++ u'), rest. by rewrite <- (assoc_L (++)).
    + by exists [], s.
Qed.

Lemma rep_run_complete {A R} (r : regex A) rest (k : list A → option R) :
  is_Some (k rest) →
  ∀ groups fuel,
    Forall (λ g, g ≠ [] ∧ ∀ rest', matches r g rest') groups →
    length (concat groups ++ rest) ≤ fuel →
    is_Some (rep_run fuel r (concat groups ++ rest) k).
Proof.
  intros Hk. induction groups as [|g groups IH]; intros fuel Hg Hf.
  - simpl. destruct fuel as [|fuel]; simpl; [done|].
    by destruct (run r rest _).
  - apply Forall_cons in Hg as [[Hne Hm] Hg].
    simpl concat in *. rewrite <- (assoc_L (++)) in *.
    rewrite (length_app g) in Hf.
    destruct fuel as [|fuel]; [destruct g; [done|simpl in Hf; lia]|].
    simpl.
    destruct (run_complete r g (concat groups ++ rest) (Hm _)
                (λ s', if length s' <? length (g ++ concat groups ++ rest)
                       then rep_run fuel r s' k else None)) as [x ->]; [|done].
    assert ((length (concat groups ++ rest)
               <? length (g ++ concat groups ++ rest)) = true) as ->.
    { apply Nat.ltb_lt. rewrite (length_app g).
      destruct g; [done|simpl; lia]. }
    apply IH; [done|]. destruct g; [done|simpl in Hf; lia].
Qed.

Lemma search_with_None {A} (m : list A → option (list A)) : ∀ s i,
  search_with m i s = None ↔ ∀ n, n ≤ length s → m (drop n s) = None.
Proof.
  induction s as [|c s IH]; intros i; simpl.
  - destruct (m []) eqn:Hm.
    + split; [done|]. intros H. specialize (H 0 (le_n _)). simpl in H. congruence.
    + split; [|done]. intros _ n Hn. by rewrite drop_nil.
  - destruct (m (c :: s)) eqn:Hm.
    + split; [done|]. intros H. specialize (H 0 (Nat.le_0_l _)). simpl in H. congruence.
    + rewrite IH. split.
      * intros H [|n] Hn; [done|]. simpl. apply H. lia.
      * intros H n Hn. apply (H (S n)). lia.
Qed.

Lemma contains_app needle pre s :
  needle `prefix_of` s → contains needle (pre ++ s) = true.
Proof.
  intros Hp. induction pre as [|c pre IH]; simpl.
  - destruct s; simpl; by rewrite bool_decide_eq_true_2.
  - rewrite IH. apply orb_true_r.
Qed.

Lemma matches_Seq_chr l rest :
  l ≠ [] → matches (Seq (map chr l)) l rest.
Proof.
  induction l as [|c l IH]; [done|]. intros _.
  destruct l as [|c' l].
  - simpl. constructor. apply Ascii.eqb_refl.
  - change (Seq (map chr (c :: c' :: l)))
      with (Cat (chr c) (Seq (map chr (c' :: l)))).
    apply (m_cat _ _ [c] (c' :: l)).
    + constructor. apply Ascii.eqb_refl.
    + by apply IH.
Qed.

(** What the last part of the pattern consumes starts with one of the
    two nouns. *)
Lemma category_tail_noun u rest :
  matches category_tail u rest →
  chars "method" `prefix_of` u ∨ chars "process" `prefix_of` u.
Proof.
  unfold category_tail. simpl Seq. intros H.
  apply DependencyFacts.matches_Cat_inv in H as (u1 & u2 & -> & H & _).
  assert (∀ w v rest', matches (lit w) v rest' → v = chars w) as Hlit.
  { intros w. unfold lit. induction (chars w) as [|c l IH]; intros v rest' M.
    - simpl in M. by inversion M.
    - destruct l as [|c' l].
      + simpl in M. inversion M as [|? ? ? Hc| | | | |]; subst.
        by apply DependencyFacts.is_char_eq in Hc as ->.
      + change (Seq (map chr (c :: c' :: l)))
          with (Cat (chr c) (Seq (map chr (c' :: l)))) in M.
        apply DependencyFacts.matches_Cat_inv in M as (v1 & v2 & -> & M1 & M2).
        inversion M1 as [|? ? ? Hc| | | | |]; subst.
        apply DependencyFacts.is_char_eq in Hc as ->.
        by rewrite (IH _ _ M2). }
  inversion H; subst.
  - left. match goal with M : matches (lit _) _ _ |- _ =>
      apply Hlit in M as -> end. by apply prefix_app_r.
  - right. match goal with M : matches (lit _) _ _ |- _ =>
      apply Hlit in M as -> end. by apply prefix_app_r.
Qed.

(** X6. A text in which neither "method" nor "process" occurs is a system
    claim. *)
Theorem detect_category_system (text : str) :
  contains (chars "method") text = false →
  contains (chars "process") text = false →
  detect_category text = "system"%string.
Proof.
  intros Hm Hp. unfold detect_category.
  destruct (search_with category_here 0 text) eqn:Hs; [|done]. exfalso.
  assert (search_with category_here 0 text = None) as Hnone; [|congruence].
  apply search_with_None. intros n Hn.
  destruct (category_here (drop n text)) as [rest|] eqn:Hc; [|done].
  exfalso. unfold category_here in Hc.
  apply run_sound in Hc as (u1 & s1 & Hu1 & _ & Hc).
  apply rep_run_sound in Hc as (u2 & s2 & -> & Hc).
  apply run_sound in Hc as (u3 & rest' & -> & M & _).
  assert (text = (take n text ++ u1 ++ u2) ++ u3 ++ rest') as Htext.
  { rewrite <- (take_drop n text) at 1. rewrite Hu1.
    by rewrite <- !(assoc_L (++)). }
  apply category_tail_noun in M as [M|M].
  - rewrite Htext, contains_app in Hm; [done|by apply prefix_app_r].
  - rewrite Htext, contains_app in Hp; [done|by apply prefix_app_r].
Qed.

Lemma detect_category_system_witness :
  detect_category
    (chars "The system of claim 1, wherein the device comprises a sensor.")
  = "system"%string.
Proof. apply detect_category_system; vm_compute; reflexivity. Defined.

Lemma word_group_matches g :
  word_group g → g ≠ [] ∧ ∀ rest, matches category_word g rest.
Proof.
  intros (w & c & -> & Hne & Hw & Hc). split; [by destruct w|].
  intros rest. destruct w as [|x w]; [done|].
  simpl in Hw. apply andb_prop in Hw as [Hx Hw].
  unfold category_word, Plus.
  apply (m_cat _ _ (x :: w) [c]); [|by constructor].
  apply (m_cat _ _ [x] w); by constructor.
Qed.

(** X7. A text that has somewhere one of the articles A, An, The, one
    white space, any number of words of letters, digits, underscores and
    hyphens each followed by one white space, one of the nouns method and
    process, and one white space, is a method claim. *)
Theorem detect_category_method
    (pre : str) (art : string) (w1 : ascii) (groups : list str)
    (noun : string) (w2 : ascii) (post : str) :
  art ∈ ["A"; "An"; "The"]%string → is_space w1 = true →
  Forall word_group groups →
  noun ∈ ["method"; "process"]%string → is_space w2 = true →
  detect_category
    (pre ++ chars art ++ w1 :: concat groups ++ chars noun ++ w2 :: post)
  = "method"%string.
Proof.
  intros Hart Hw1 Hg Hnoun Hw2. unfold detect_category.
  destruct (search_with category_here 0 _) eqn:Hs; [done|]. exfalso.
  pose proof (proj1 (search_with_None _ _ _) Hs (length pre)) as Hn.
  rewrite drop_app_length, length_app in Hn. specialize (Hn ltac:(lia)).
  assert (is_Some (category_here
            (chars art ++ w1 :: concat groups ++ chars noun ++ w2 :: post)))
    as [x Hx]; [|congruence].
  unfold category_here.
  change (chars art ++ w1 :: ?s) with (chars art ++ [w1] ++ s).
  rewrite (assoc_L (++)). apply run_complete.
  { unfold category_head. apply (m_cat _ _ (chars art) [w1]); [|by constructor].
    repeat (apply elem_of_cons in Hart as [->|Hart]);
      [| | |by apply elem_of_nil in Hart].
    - apply m_alt_l. by apply matches_Seq_chr.
    - apply m_alt_r, m_alt_l. by apply matches_Seq_chr.
    - apply m_alt_r, m_alt_r. by apply matches_Seq_chr. }
  apply rep_run_complete; [| |done].
  - change (chars noun ++ w2 :: post) with (chars noun ++ [w2] ++ post).
    rewrite (assoc_L (++)). apply run_complete; [|done].
    unfold category_tail. simpl Seq.
    apply (m_cat _ _ (chars noun) [w2]).
    + repeat (apply elem_of_cons in Hnoun as [->|Hnoun]);
        [| |by apply elem_of_nil in Hnoun].
      * apply m_alt_l. by apply matches_Seq_chr.
      * apply m_alt_r. by apply matches_Seq_chr.
    + rewrite <- (app_nil_r [w2]).
      apply (m_cat _ _ [w2] []); [by constructor|]. apply m_alt_r. constructor.
  - eapply Forall_impl; [exact Hg|]. apply word_group_matches.
Qed.

Lemma detect_category_method_witness :
  detect_category
    (chars "1. " ++ chars "A" ++ " "%char
       :: concat [chars "computer-implemented "; chars "sorting "]
       ++ chars "method" ++ " "%char :: chars "for use in a device.")
  = "method"%string.
Proof.
  apply detect_category_method.
  - repeat constructor.
  - reflexivity.
  - repeat constructor.
    + exists (chars "computer-implemented"), " "%char. repeat split; done.
    + exists (chars "sorting"), " "%char. repeat split; done.
  - repeat constructor.
  - reflexivity.
Defined.

End CategoryFacts.


(* ================================================================== *)
(** ** Text blocks and text sets *)
(* ================================================================== *)

Module TextFacts.
Import Py Nltk Spec SpecX TextBlock TextSet.

(** X8. [set_pos] keeps the words of the tagger's list, in order; a
    word that is not "comprising" keeps the tagger's tag, and
    "comprising" gets VBG, so that no "comprising" with another tag is
    left in the result. *)
Theorem set_pos_overrides (pos_tag : list string → list tagged)
    (words : list string) :
  map fst (BaseTextBlock.set_pos pos_tag words) = map fst (pos_tag words)
  ∧ (∀ i w tag,
        pos_tag words !! i = Some (w, tag) →
        BaseTextBlock.set_pos pos_tag words !! i
        = Some (w, if decide (w = "comprising"%string)
                   then "VBG"%string else tag))
  ∧ ∀ tag,
      ("comprising"%string, tag) ∈ BaseTextBlock.set_pos pos_tag words →
      tag = "VBG"%string.
Proof.
  split; [|split; [|apply InitFacts.set_pos_comprising]];
    unfold BaseTextBlock.set_pos; generalize (pos_tag words); intros l.
  - induction l as [|[w t] l IH]; simpl; [done|].
    rewrite IH. destruct (decide (w ≠ "comprising"%string)) as [Hne|Heq];
      [done|]. apply dec_stable in Heq. by subst.
  - induction l as [|[w t] l IH]; intros [|i] w' tag H; simpl in *; try done.
    + injection H as -> ->.
      destruct (decide (w' ≠ "comprising"%string)) as [Hne|Heq].
      * by rewrite decide_False.
      * apply dec_stable in Heq. subst. by rewrite decide_True.
    + by apply IH.
Qed.

Lemma set_pos_overrides_witness :
  BaseTextBlock.set_pos tag_all_NN ["device"; "comprising"]%string !! 1
  = Some ("comprising", "VBG")%string.
Proof.
  apply (proj1 (proj2 (set_pos_overrides tag_all_NN
                         ["device"; "comprising"]%string))
           1 "comprising"%string "NN"%string).
  reflexivity.
Defined.

(** X9. With "_UNK_" in the vocabulary, [filtered_token2int] never
    raises: it returns one integer per token, in order, the token's own
    when the token is in the vocabulary and that of "_UNK_" when it is
    not. *)
Theorem filtered_token2int_unk (vocab_dict : gmap string Z)
    (tokens : list string) (unk : Z) :
  vocab_dict !! "_UNK_"%string = Some unk →
  ∃ ids,
    filtered_token2int vocab_dict tokens = Some ids
    ∧ length ids = length tokens
    ∧ ∀ i token, tokens !! i = Some token →
        ids !! i = Some (default unk (vocab_dict !! token)).
Proof.
  intros Hunk. unfold filtered_token2int.
  exists (map (λ token, default unk (vocab_dict !! token)) tokens).
  split; [|split].
  - apply mapM_Some_2. induction tokens as [|t tokens IH]; simpl; constructor.
    + rewrite Hunk. by destruct (vocab_dict !! t).
    + done.
  - apply length_map.
  - intros i token H. change (map ?f ?l) with (f <$> l).
    by rewrite list_lookup_fmap, H.
Qed.

Lemma filtered_token2int_unk_witness :
  ∃ ids,
    filtered_token2int
      (<["sensor"%string := 7%Z]> (<["_UNK_"%string := 0%Z]> ∅))
      ["sensor"; "lens"]%string
    = Some ids
    ∧ length ids = 2.
Proof.
  destruct (filtered_token2int_unk
              (<["sensor"%string := 7%Z]> (<["_UNK_"%string := 0%Z]> ∅))
              ["sensor"; "lens"]%string 0%Z) as (ids & H1 & H2 & _).
  - reflexivity.
  - exists ids. split; [exact H1|exact H2].
Defined.

(** X10. [filtered_token2int] raises exactly when "_UNK_" is not in the
    vocabulary and some token is not in it either. *)
Theorem filtered_token2int_error (vocab_dict : gmap string Z)
    (tokens : list string) :
  filtered_token2int vocab_dict tokens = None
  ↔ vocab_dict !! "_UNK_"%string = None
    ∧ ∃ token, token ∈ tokens ∧ vocab_dict !! token = None.
Proof.
  unfold filtered_token2int. rewrite mapM_None, Exists_exists. split.
  - intros (token & Hin & H). destruct (vocab_dict !! token) eqn:E; [done|].
    split; [done|]. by exists token.
  - intros (Hunk & token & Hin & H). exists token. split; [done|].
    by rewrite H.
Qed.

Lemma lower_char_idemp c : lower_char (lower_char c) = lower_char c.
Proof. destruct c as [[] [] [] [] [] [] [] []]; vm_compute; reflexivity. Qed.

Lemma lower_idemp s : lower (lower s) = lower s.
Proof.
  induction s as [|c s IH]; simpl; [done|].
  by rewrite lower_char_idemp, IH.
Qed.

(** X11. [appears_in] does not depend on the case of the term nor on the
    case of the words, and a word of the block appears in it. *)
Theorem appears_in_case (words : list string) (term : string) :
  appears_in words (lower term) = appears_in words term
  ∧ appears_in (map lower words) term = appears_in words term
  ∧ (term ∈ words → appears_in words term = true).
Proof.
  unfold appears_in. split; [|split].
  - by rewrite lower_idemp.
  - assert (map lower (map lower words) = map lower words) as ->; [|done].
    induction words as [|w words IH]; simpl; [done|].
    by rewrite lower_idemp, IH.
  - intros Hin. apply bool_decide_eq_true_2.
    apply list_elem_of_In, in_map. by apply list_elem_of_In.
Qed.

Lemma appears_in_case_witness :
  appears_in ["The"; "Device"]%string "Device" = true.
Proof.
  apply (proj2 (proj2 (appears_in_case ["The"; "Device"]%string "Device"))).
  apply list_elem_of_further, list_elem_of_here.
Defined.

(** X12. [get_unit] counts from 1: for [number] from 1 to the number of
    units it returns the unit at that place.  [get_unit(0)] does not
    raise on a set that has units: it returns the last one.  It raises
    exactly when [number] is above the number of units or at most its
    negative. *)
Theorem get_unit_spec {A} (units : list A) (number : Z) :
  let n := Z.of_nat (length units) in
  ((1 ≤ number ≤ n)%Z →
     get_unit units number = units !! Z.to_nat (number - 1)
     ∧ is_Some (get_unit units number))
  ∧ get_unit units 0 = last units
  ∧ (get_unit units number = None ↔ (n < number ∨ number ≤ - n)%Z).
Proof.
  cbv zeta. unfold get_unit, py_index. split; [|split].
  - intros H.
    assert (((0 <=? number - 1)%Z && (number - 1 <? Z.of_nat (length units))%Z)
            = true) as ->.
    { apply andb_true_intro. split; [apply Z.leb_le|apply Z.ltb_lt]; lia. }
    split; [done|]. apply lookup_lt_is_Some. lia.
  - destruct units as [|x units] using rev_ind; [done|].
    rewrite last_snoc, length_app. simpl length.
    assert (((0 <=? 0 - 1)%Z && (0 - 1 <? Z.of_nat (length units + 1))%Z)
            = false) as -> by done.
    assert (((- Z.of_nat (length units + 1) <=? 0 - 1)%Z && (0 - 1 <? 0)%Z)
            = true) as ->.
    { apply andb_true_intro. split; [apply Z.leb_le; lia|done]. }
    replace (Z.to_nat (Z.of_nat (length units + 1) + (0 - 1)))
      with (length units) by lia.
    by rewrite lookup_app_r, Nat.sub_diag.
  - destruct ((0 <=? number - 1)%Z && (number - 1 <? Z.of_nat (length units))%Z)
      eqn:E1.
    + apply andb_prop in E1 as [H1%Z.leb_le H2%Z.ltb_lt].
      rewrite lookup_ge_None. lia.
    + destruct ((- Z.of_nat (length units) <=? number - 1)%Z
                && (number - 1 <? 0)%Z) eqn:E2.
      * apply andb_prop in E2 as [H1%Z.leb_le H2%Z.ltb_lt].
        rewrite lookup_ge_None. lia.
      * apply andb_false_iff in E1, E2. split; [|done]. intros _.
        destruct E1 as [E1%Z.leb_gt|E1%Z.ltb_ge];
          destruct E2 as [E2%Z.leb_gt|E2%Z.ltb_ge]; lia.
Qed.

Lemma get_unit_spec_witness :
  get_unit [chars "first"; chars "second"] 2
  = [chars "first"; chars "second"] !! Z.to_nat (2 - 1).
Proof.
  apply (proj1 (get_unit_spec [chars "first"; chars "second"] 2%Z)).
  simpl. lia.
Defined.

Lemma character_counter_foldl units : ∀ acc,
  foldl (λ acc u, acc ⊎ TextBlock.character_counter u) acc units
  = acc ⊎ list_to_set_disj (concat units).
Proof.
  induction units as [|u units IH]; intros acc; simpl.
  - change (list_to_set_disj []) with (∅ : gmultiset ascii). multiset_solver.
  - rewrite IH, list_to_set_disj_app. unfold TextBlock.character_counter,
      characters. by rewrite (assoc_L (⊎)).
Qed.

Lemma join_counter (sep : str) units :
  list_to_set_disj (join sep units)
  =@{gmultiset ascii}
    list_to_set_disj (concat units)
    ⊎ (length units - 1) *: list_to_set_disj sep.
Proof.
  induction units as [|u units IH].
  - change (list_to_set_disj (join sep []))
      with (∅ : gmultiset ascii).
    change (list_to_set_disj (concat []))
      with (∅ : gmultiset ascii).
    multiset_solver.
  - destruct units as [|v units].
    + simpl join. simpl concat. rewrite app_nil_r. simpl length.
      multiset_solver.
    + change (join sep (u :: v :: units))
        with (u ++ sep ++ join sep (v :: units)).
      change (concat (u :: v :: units)) with (u ++ concat (v :: units)).
      rewrite !list_to_set_disj_app, IH.
      replace (length (u :: v :: units) - 1)
        with (S (length (v :: units) - 1)) by (simpl; lia).
      rewrite gmultiset_scalar_mul_S_l. multiset_solver.
Qed.

(** X13. The character counter of a text set counts every character as
    often as it occurs in the text of the set, except the line feed: the
    line feeds that join the units in the text, one fewer than there are
    units, are not counted. *)
Theorem character_counter_text (units : list str) (c : ascii) :
  multiplicity c (TextBlock.character_counter (TextSet.text units))
  = multiplicity c (TextSet.character_counter units)
    + (if decide (c = "010"%char) then length units - 1 else 0).
Proof.
  unfold TextSet.character_counter, TextSet.text, TextBlock.character_counter,
    characters.
  rewrite character_counter_foldl, join_counter.
  rewrite !multiplicity_disj_union, multiplicity_scalar_mul, multiplicity_empty.
  change (list_to_set_disj ["010"%char])
    with ({[+ "010"%char +]} ⊎ (∅ : gmultiset ascii)).
  rewrite multiplicity_disj_union, multiplicity_empty.
  destruct (decide (c = "010"%char)) as [->|Hne].
  - rewrite multiplicity_singleton, Nat.add_0_r, Nat.mul_1_r. lia.
  - rewrite multiplicity_singleton_ne, Nat.add_0_r, Nat.mul_0_r by done. lia.
Qed.

End TextFacts.


(* ================================================================== *)
(** ** The pipeline: constructor, chunks, labels, JSON *)
(* ================================================================== *)

Module PipelineFacts.
Import Re Py Nltk Spec SpecX ReFacts NumberFacts DependencyFacts
  NounPhraseFacts InitFacts Claim Json.

(** *** The constructor *)

Lemma init_rest parse ends_with word_tokenize pos_tag
    text0 number0 dependency0 c :
  init parse ends_with word_tokenize pos_tag text0 number0 dependency0
  = Some c →
  label_nounphrases parse ends_with (Claim.pos c)
  = Some (word_data c, mapping_dict c)
  ∧ words c = word_tokenize (text c)
  ∧ features c = split_into_features (text c).
Proof.
  unfold init. intros H.
  destruct (get_number text0) as [[parsed_number text1]|]; [|done].
  simpl in H.
  destruct (truthy number0); [destruct (decide _)|];
    (destruct (detect_dependency text1) as [pd|]; [|done]);
    simpl in H;
    (destruct dependency0 as [d|];
       [destruct (truthy (Some d)); [destruct (decide _)|]|]);
    (destruct (label_nounphrases _ _ _) as [[wd md]|] eqn:Hl; [|done]);
    simpl in H; injection H as <-; simpl; done.
Qed.

Lemma warnings_differ : number_warning ≠ dependency_warning.
Proof. done. Qed.

(** X14. The constructor never raises.  A number or dependency passed to
    it that is not 0 is the one stored, and the matching warning is
    printed exactly when it differs from the parsed one; an argument left
    out gives the parsed value. *)
Theorem init_supplied_wins
    (parse : list tagged → list node) (ends_with : string → string → bool)
    (word_tokenize : str → list string)
    (pos_tag : list string → list tagged)
    (text0 : str) (number0 dependency0 : option Z) :
  ∃ c parsed_number parsed_dependency,
    init parse ends_with word_tokenize pos_tag text0 number0 dependency0
    = Some c
    ∧ get_number text0 = Some (parsed_number, text c)
    ∧ detect_dependency (text c) = Some parsed_dependency
    ∧ (∀ n, number0 = Some n → n ≠ 0%Z →
         number c = Some n
         ∧ (number_warning ∈ stdout c ↔ Some n ≠ parsed_number))
    ∧ (∀ d, dependency0 = Some d → d ≠ 0%Z →
         dependency c = d
         ∧ (dependency_warning ∈ stdout c ↔ d ≠ parsed_dependency))
    ∧ (number0 = None → number c = parsed_number)
    ∧ (dependency0 = None → dependency c = parsed_dependency).
Proof.
  destruct (init_total parse ends_with word_tokenize pos_tag
              text0 number0 dependency0) as [c Hc].
  destruct (init_fields _ _ _ _ _ _ _ _ Hc)
    as (pn & pd & Hn & Hd & Hnum & Hdep & Hout & _).
  exists c, pn, pd. repeat (split; [done|]).
  split; [|split; [|split]].
  - intros n -> Hne. simpl in Hnum, Hout.
    apply Z.eqb_neq in Hne. rewrite Hne in Hnum, Hout. simpl in Hnum, Hout.
    split; [done|]. rewrite Hout, elem_of_app.
    destruct (bool_decide (Some n ≠ pn)) eqn:E.
    + apply bool_decide_eq_true in E. split; [done|]. intros _. left.
      apply list_elem_of_here.
    + apply bool_decide_eq_false in E. split; [|done].
      intros [H|H]; [by apply elem_of_nil in H|].
      destruct (_ && _); [|by apply elem_of_nil in H].
      apply list_elem_of_singleton in H. by apply warnings_differ in H.
  - intros d -> Hne. simpl in Hdep, Hout.
    apply Z.eqb_neq in Hne. rewrite Hne in Hdep, Hout. simpl in Hdep, Hout.
    split; [done|]. rewrite Hout, elem_of_app.
    destruct (bool_decide (Some d ≠ Some pd)) eqn:E.
    + apply bool_decide_eq_true in E. split; [congruence|]. intros _. right.
      apply list_elem_of_here.
    + apply bool_decide_eq_false in E. split; [|intros ?; destruct E; congruence].
      intros [H|H]; [|by apply elem_of_nil in H].
      destruct (_ && _); [|by apply elem_of_nil in H].
      apply list_elem_of_singleton in H. symmetry in H.
      by apply warnings_differ in H.
  - by intros ->.
  - by intros ->.
Qed.

Lemma init_supplied_wins_witness :
  ∃ c,
    init cp_parse ends_with example_tokens tag_all_NN
      (chars "2. A device of claim 1.") (Some 3%Z) (Some 1%Z)
    = Some c
    ∧ number c = Some 3%Z ∧ dependency c = 1%Z.
Proof.
  destruct (init_supplied_wins cp_parse ends_with example_tokens tag_all_NN
              (chars "2. A device of claim 1.") (Some 3%Z) (Some 1%Z))
    as (c & pn & pd & Hc & _ & _ & Hn & Hd & _).
  exists c. split; [exact Hc|]. split.
  - exact (proj1 (Hn 3%Z eq_refl ltac:(discriminate))).
  - exact (proj1 (Hd 1%Z eq_refl ltac:(discriminate))).
Defined.

(** *** The JSON view *)

Lemma words_from_spec : ∀ (wd : list word_datum) i,
  map (λ r, (word r, Json.pos r)) (words_from i wd) = map untag wd
  ∧ map id (words_from i wd) = seq i (length wd)
  ∧ map np (words_from i wd) = map snd wd.
Proof.
  induction wd as [|[[w p] l] wd IH]; intros i; simpl; [done|].
  destruct (IH (S i)) as (-> & -> & ->). done.
Qed.

(** X15. The JSON view of a claim has one record per tagged token of the
    claim, in order: the words and tags are those of the claim's
    part-of-speech list, and the ids count from 0. *)
Theorem json_words
    (ends_with : string → string → bool) (word_tokenize : str → list string)
    (pos_tag : list string → list tagged)
    (text0 : str) (number0 dependency0 : option Z) :
  ∃ c,
    init cp_parse ends_with word_tokenize pos_tag text0 number0 dependency0
    = Some c
    ∧ map (λ r, (word r, Json.pos r)) (json (word_data c)) = Claim.pos c
    ∧ map id (json (word_data c)) = seq 0 (length (Claim.pos c))
    ∧ map np (json (word_data c)) = map snd (word_data c).
Proof.
  destruct (init_total cp_parse ends_with word_tokenize pos_tag
              text0 number0 dependency0) as [c Hc].
  exists c. split; [done|].
  destruct (init_rest _ _ _ _ _ _ _ _ Hc) as (Hl & _ & _).
  destruct (label_nounphrases_result cp_parse ends_with (Claim.pos c))
    as (ids & m & Hl' & Hlen & _).
  rewrite Hl in Hl'. injection Hl' as Hwd _.
  assert (map untag (word_data c) = Claim.pos c) as Hun.
  { rewrite Hwd, (labelled_untag _ 0) by done. apply parse_leaves. }
  unfold json. destruct (words_from_spec (word_data c) 0) as (-> & -> & ->).
  split; [done|]. split; [|done].
  by rewrite <- Hun, length_map.
Qed.

(** *** Nouns and chunks *)

Lemma tag_NN_others x :
  tag_NN x = true → tag_DT_PRPS x = false ∧ tag_is "JJ" x = false.
Proof.
  unfold tag_NN, tag_DT_PRPS, tag_is. destruct x as [w tg]. cbn [snd].
  intros H. apply String.prefix_correct in H.
  destruct tg as [|a [|b tg]]; simpl in H; try discriminate H.
  injection H as -> ->. done.
Qed.

Lemma ends_in_noun_app pre u : ends_in_noun u → ends_in_noun (pre ++ u).
Proof.
  intros (front & x & -> & Hx). exists (pre ++ front), x.
  by rewrite (assoc_L (++)).
Qed.

Lemma plus_NN_ends u rest : matches (Plus tag_NN) u rest → ends_in_noun u.
Proof.
  unfold Plus. intros H.
  apply matches_Cat_inv in H as (u1 & u2 & -> & H1 & H2).
  inversion H1 as [|? c ? Hc| | | | |]; subst.
  inversion H2 as [| | | | |? ? ? Hall|]; subst.
  destruct u2 as [|y u2 _] using rev_ind.
  - by exists [], c.
  - exists (c :: u2), y. split; [done|].
    rewrite forallb_app in Hall. apply andb_prop in Hall as [_ Hy].
    simpl in Hy. by apply andb_prop in Hy as [Hy _].
Qed.

(** What a rule of the grammar consumes ends with a noun. *)
Lemma grammar_ends_in_noun r u rest :
  r ∈ grammar → matches r u rest → ends_in_noun u.
Proof.
  unfold grammar. intros Hr M.
  repeat (apply elem_of_cons in Hr as [->|Hr]);
    [| | |by apply elem_of_nil in Hr]; simpl Seq in M.
  - do 2 (apply matches_Cat_inv in M as (? & ? & -> & _ & M)).
    do 2 apply ends_in_noun_app. by eapply plus_NN_ends.
  - do 4 (apply matches_Cat_inv in M as (? & ? & -> & _ & M)).
    do 4 apply ends_in_noun_app. by eapply plus_NN_ends.
  - do 2 (apply matches_Cat_inv in M as (? & ? & -> & _ & M)).
    do 2 apply ends_in_noun_app. by eapply plus_NN_ends.
Qed.

Lemma chunk_run_chunks r :
  (∀ u rest, matches r u rest → ends_in_noun u) →
  ∀ fuel run,
    Forall (λ n, match n with NP ls => ends_in_noun ls | Leaf _ => True end)
           (chunk_run fuel r run).
Proof.
  intros Hr. induction fuel as [|fuel IH]; intros run; simpl.
  - induction run; simpl; by constructor.
  - destruct run as [|x run]; [done|].
    destruct (match_here r (x :: run)) as [rest|] eqn:Hm;
      [|by constructor].
    destruct (_ =? 0); [by constructor|]. constructor; [|done].
    apply match_here_sound in Hm as (u & Hu & M).
    change (S (length run)) with (length (x :: run)).
    rewrite Hu, length_app.
    replace (length u + length rest - length rest) with (length u) by lia.
    rewrite take_app_length. by eapply Hr.
Qed.

Lemma apply_rule_chunks r :
  (∀ u rest, matches r u rest → ends_in_noun u) →
  ∀ tree run,
    Forall (λ n, match n with NP ls => ends_in_noun ls | Leaf _ => True end)
           tree →
    Forall (λ n, match n with NP ls => ends_in_noun ls | Leaf _ => True end)
           (apply_rule r tree run).
Proof.
  intros Hr. induction tree as [|[x|ls] tree IH]; intros run Ht; simpl.
  - by apply chunk_run_chunks.
  - apply IH. by apply Forall_cons in Ht as [_ ?].
  - apply Forall_cons in Ht as [Hls Ht]. apply Forall_app. split.
    + by apply chunk_run_chunks.
    + constructor; [done|]. by apply IH.
Qed.

(** The last rule matches at a noun, and consumes it. *)
Lemma last_rule_at_noun x run :
  tag_NN x = true →
  ∃ rest,
    match_here (Seq [Opt (Sym tag_DT_PRPS); Star (tag_is "JJ"); Plus tag_NN])
      (x :: run) = Some rest
    ∧ length rest ≤ length run.
Proof.
  intros Hx. destruct (tag_NN_others x Hx) as [Hdt Hjj].
  destruct (star_run_total tag_NN Some
              (λ s, ex_intro _ [] (ex_intro _ s (conj eq_refl eq_refl))) run)
    as (u & rest & -> & Hs).
  exists rest. split; [|rewrite length_app; lia].
  unfold match_here. cbn -[tag_DT_PRPS tag_is tag_NN].
  by rewrite Hdt, Hjj, Hx, Hs.
Qed.

Lemma chunk_run_last_rule : ∀ fuel run,
  length run ≤ fuel →
  Forall (λ n, match n with Leaf x => tag_NN x = false | NP _ => True end)
    (chunk_run fuel
       (Seq [Opt (Sym tag_DT_PRPS); Star (tag_is "JJ"); Plus tag_NN]) run).
Proof.
  induction fuel as [|fuel IH]; intros run Hf.
  - destruct run; [done|simpl in Hf; lia].
  - destruct run as [|x run]; [done|]. simpl in Hf.
    cbn [chunk_run].
    destruct (tag_NN x) eqn:Hx.
    + destruct (last_rule_at_noun x run Hx) as (rest & -> & Hlen).
      assert ((length (x :: run) - length rest =? 0) = false) as ->
        by (apply Nat.eqb_neq; simpl; lia).
      constructor; [done|]. apply IH. lia.
    + destruct (match_here _ (x :: run)) as [rest|] eqn:Hm.
      * pose proof (match_here_length _ _ _ Hm) as Hlen. simpl in Hlen.
        destruct (_ =? 0) eqn:E.
        -- constructor; [done|]. apply IH. lia.
        -- apply Nat.eqb_neq in E. simpl in E.
           constructor; [done|]. apply IH. lia.
      * constructor; [done|]. apply IH. lia.
Qed.

Lemma apply_last_rule : ∀ tree run,
  Forall (λ n, match n with Leaf x => tag_NN x = false | NP _ => True end)
    (apply_rule
       (Seq [Opt (Sym tag_DT_PRPS); Star (tag_is "JJ"); Plus tag_NN])
       tree run).
Proof.
  induction tree as [|[x|ls] tree IH]; intros run; simpl.
  - by apply chunk_run_last_rule.
  - apply IH.
  - apply Forall_app. split; [by apply chunk_run_last_rule|].
    constructor; [done|]. apply IH.
Qed.

Lemma cp_parse_noun_inside (pos : list tagged) :
  Forall noun_inside (cp_parse pos).
Proof.
  unfold cp_parse, Nltk.parse, grammar. simpl fold_left.
  set (t2 := apply_rule _ (apply_rule _ (map Leaf pos) []) []).
  assert (Forall (λ n, match n with
                       | NP ls => ends_in_noun ls | Leaf _ => True end)
            (apply_rule
               (Seq [Opt (Sym tag_DT_PRPS); Star (tag_is "JJ"); Plus tag_NN])
               t2 [])) as Hchunks.
  { assert (∀ r, r ∈ grammar → ∀ u rest, matches r u rest → ends_in_noun u)
      as Hg by (intros r Hr u rest; by apply grammar_ends_in_noun).
    unfold t2. repeat apply apply_rule_chunks.
    - apply Hg. do 2 apply list_elem_of_further. apply list_elem_of_here.
    - apply Hg. apply list_elem_of_further, list_elem_of_here.
    - apply Hg. apply list_elem_of_here.
    - clear. induction pos; simpl; by constructor. }
  pose proof (apply_last_rule t2 []) as Hleaves.
  apply Forall_forall. rewrite Forall_forall in Hchunks, Hleaves.
  intros [x|ls] Hin.
  - apply (Hleaves _ Hin).
  - apply (Hchunks _ Hin).
Qed.

(** X16. In the tree the chunk grammar gives, for every tagged token
    sequence, every chunk ends with a noun (a tag that starts with NN),
    and no noun is left outside a chunk. *)
Theorem cp_parse_nouns (pos : list tagged) :
  Forall noun_inside (cp_parse pos)
  ∧ leaves (cp_parse pos) = pos.
Proof. split; [apply cp_parse_noun_inside|apply parse_leaves]. Qed.

Lemma labelled_nouns tree : ∀ ids,
  Forall noun_inside tree →
  Forall (λ d : word_datum,
            tag_NN (untag d) = true →
            ∃ np_id, d.2 = NPid np_id ∧ np_id ∈ ids)
         (labelled tree ids).
Proof.
  induction tree as [|[x|ls] tree IH]; intros ids Ht; simpl; [done| |];
    apply Forall_cons in Ht as [Hn Ht].
  - constructor; [|by apply IH]. simpl in Hn. unfold untag. simpl.
    destruct x. simpl in *. congruence.
  - destruct ids as [|np_id ids]; [done|]. apply Forall_app. split.
    + apply Forall_forall. intros d Hd.
      apply list_elem_of_In, in_map_iff in Hd as (leaf & <- & _).
      intros _. exists np_id. split; [done|]. apply list_elem_of_here.
    + eapply Forall_impl; [by apply IH|]. intros d Hd Hnn.
      destruct (Hd Hnn) as (v & ? & ?). exists v. split; [done|].
      by apply list_elem_of_further.
Qed.

(** X17. With the chunk grammar, every noun token of the flat list
    carries a noun-phrase identifier, and that identifier is one of the
    mapping: between 1 and its size. *)
Theorem nouns_are_labelled
    (ends_with : string → string → bool) (pos : list tagged) :
  ∃ flat_list mapping_dict,
    label_nounphrases cp_parse ends_with pos = Some (flat_list, mapping_dict)
    ∧ Forall (λ d : word_datum,
                tag_NN (untag d) = true →
                ∃ np_id, d.2 = NPid np_id
                         ∧ 1 ≤ np_id ≤ length mapping_dict)
             flat_list.
Proof.
  destruct (label_nounphrases_result cp_parse ends_with pos)
    as (ids & m & Hl & _ & Hm & _ & _ & Hall).
  exists (labelled (cp_parse pos) ids), m. split; [done|].
  eapply Forall_impl; [apply labelled_nouns, cp_parse_noun_inside|].
  intros d Hd Hnn. destruct (Hd Hnn) as (v & Hv & Hin).
  exists v. split; [done|].
  apply list_elem_of_lookup in Hin as (i & Hi).
  destruct (Forall2_lookup_r _ _ _ _ _ Hall Hi) as (st & _ & Hvm & _).
  rewrite Hm in Hvm. apply elem_of_seq in Hvm. lia.
Qed.

Lemma nouns_are_labelled_witness :
  ∃ flat_list mapping_dict,
    label_nounphrases cp_parse ends_with
      [("a", "DT"); ("sensor", "NN"); ("is", "VBZ")]%string
    = Some (flat_list, mapping_dict)
    ∧ ∃ d np_id, flat_list !! 1 = Some d ∧ d.2 = NPid np_id
                 ∧ 1 ≤ np_id ≤ length mapping_dict.
Proof.
  destruct (nouns_are_labelled ends_with
              [("a", "DT"); ("sensor", "NN"); ("is", "VBZ")]%string)
    as (flat_list & mapping_dict & Hl & Hall).
  exists flat_list, mapping_dict. split; [exact Hl|].
  assert (∃ d, flat_list !! 1 = Some d ∧ tag_NN (untag d) = true)
    as (d & Hd & Hnn).
  { revert Hl. vm_compute. intros [= <- _]. eexists. split; reflexivity. }
  destruct (proj1 (Forall_lookup _ _) Hall 1 d Hd Hnn) as (np_id & H1 & H2).
  exists d, np_id. split; [exact Hd|]. split; [exact H1|exact H2].
Defined.

(** X18. Two chunks of one claim with the same canonical string get the
    same identifier, and the mapping has at most as many keys as the
    claim has chunks. *)
Theorem same_string_same_id
    (parse : list tagged → list node) (ends_with : string → string → bool)
    (pos : list tagged) :
  ∃ flat_list mapping_dict ids,
    label_nounphrases parse ends_with pos = Some (flat_list, mapping_dict)
    ∧ flat_list = labelled (parse pos) ids
    ∧ length ids = length (subtrees_NP 0 (parse pos))
    ∧ length mapping_dict ≤ length (subtrees_NP 0 (parse pos))
    ∧ ∀ i j st_i st_j id_i id_j,
        subtrees_NP 0 (parse pos) !! i = Some st_i →
        subtrees_NP 0 (parse pos) !! j = Some st_j →
        ids !! i = Some id_i → ids !! j = Some id_j →
        np_string st_i.2 = np_string st_j.2 → id_i = id_j.
Proof.
  destruct (label_nounphrases_result parse ends_with pos)
    as (ids & m & Hl & Hlen & _ & _ & Hsub & Hall).
  exists (labelled (parse pos) ids), m, ids.
  split; [done|]. split; [done|]. split; [done|]. split.
  - apply sublist_length in Hsub. by rewrite !length_map in Hsub.
  - intros i j st_i st_j id_i id_j Hi Hj Hidi Hidj Heq.
    destruct (Forall2_lookup_lr _ _ _ _ _ _ Hall Hi Hidi) as [_ Hri].
    destruct (Forall2_lookup_lr _ _ _ _ _ _ Hall Hj Hidj) as [_ Hrj].
    rewrite Heq, Hrj in Hri. by injection Hri.
Qed.

Lemma same_string_same_id_witness :
  ∃ flat_list mapping_dict np_id,
    label_nounphrases cp_parse ends_with
      [("a", "DT"); ("sensor", "NN"); ("comprising", "VBG");
       ("the", "DT"); ("sensor", "NN")]%string
    = Some (flat_list, mapping_dict)
    ∧ flat_list
      = labelled
          (cp_parse [("a", "DT"); ("sensor", "NN"); ("comprising", "VBG");
                     ("the", "DT"); ("sensor", "NN")]%string)
          [np_id; np_id].
Proof.
  destruct (same_string_same_id cp_parse ends_with
              [("a", "DT"); ("sensor", "NN"); ("comprising", "VBG");
               ("the", "DT"); ("sensor", "NN")]%string)
    as (flat_list & mapping_dict & ids & Hl & Hf & Hlen & _ & Hsame).
  change (length (subtrees_NP 0 _)) with 2 in Hlen.
  destruct ids as [|a [|b [|? ?]]]; try discriminate Hlen.
  exists flat_list, mapping_dict, a. split; [exact Hl|].
  rewrite Hf. do 2 f_equal. f_equal. symmetry.
  eapply (Hsame 0 1 _ _ a b); reflexivity.
Defined.

End PipelineFacts.
